(** * Scanline polygon fill (src/index.ts), shallow embedding

    JavaScript numbers are modelled as rationals [Q] (finite values only;
    every value the fill computes from finite inputs is a rational).
    Objects are references: the edge objects allocated by [pointsToEdges]
    live in an array of edges and the arrays [ET] and [AET] hold their
    indices, so object identity is kept apart from structural equality.
    A thrown [TypeError] is [None] for the helpers and [Thrown] for a whole
    call; the [while] loop of the fill runs on fuel, and [OutOfFuel] means
    the loop was still running when the fuel ran out. *)

From Stdlib Require Import QArith Qround ZArith List Permutation Sorted Bool Lia Lqa.
From Stdlib Require Qcanon.
Import ListNotations.

Open Scope Q_scope.

(** ** Data model *)

Record XYPoint := mkPoint { x : Q; y : Q }.

Record Edge := mkEdge { point1 : XYPoint; point2 : XYPoint }.

(** Outcome of a whole call. *)
Inductive outcome (A : Type) : Type :=
| Returned (v : A)
| Thrown
| OutOfFuel.
Arguments Returned {A} v.
Arguments Thrown {A}.
Arguments OutOfFuel {A}.

(** [a > b] and [a < b] on numbers. *)
Definition Qgt_bool (a b : Q) : bool := negb (Qle_bool a b).
Definition Qlt_bool (a b : Q) : bool := negb (Qle_bool b a).

(** ** Edge helpers (lines 22-54) *)

Definition lerp (yScan : Q) (edge : Edge) : Q :=
  let '(mkEdge point1 point2) := edge in
  inject_Z (Qfloor (((yScan - y point1) / (y point2 - y point1)) * (x point2 - x point1)
                    + x point1)).

Definition getYMin (edge : Edge) : Q :=
  let '(mkEdge point1 point2) := edge in
  if Qle_bool (y point1) (y point2) then y point1 else y point2.

Definition getYMax (edge : Edge) : Q :=
  let '(mkEdge point1 point2) := edge in
  if Qgt_bool (y point1) (y point2) then y point1 else y point2.

Definition getXofYMin (edge : Edge) : Q :=
  let '(mkEdge point1 point2) := edge in
  if Qle_bool (y point1) (y point2) then x point1 else x point2.

Definition getXofYMax (edge : Edge) : Q :=
  let '(mkEdge point1 point2) := edge in
  if Qgt_bool (y point1) (y point2) then x point1 else x point2.

(** ** pointsToEdges (lines 56-69)

    [point1] starts as [points[points.length - 1]]; on an empty array the
    loop body never runs, so the [undefined] start value is never read. *)

Fixpoint pointsToEdges_loop (point1 : XYPoint) (rest : list XYPoint) : list Edge :=
  match rest with
  | [] => []
  | point2 :: rest' =>
      if negb (Qeq_bool (x point1) (x point2))
      then mkEdge point1 point2 :: pointsToEdges_loop point2 rest'
      else pointsToEdges_loop point2 rest'
  end.

Definition pointsToEdges (points : list XYPoint) : list Edge :=
  match rev points with
  | [] => []
  | last_point :: _ => pointsToEdges_loop last_point points
  end.

(** ** Array.prototype.sort with a comparator

    The sort is stable (ECMAScript 2019); for a consistent comparator its
    result is the unique stable ordering, computed here by insertion:
    [comparator(a, b) > 0] places [a] after [b]. *)

Section Sort.
Context {A : Type} (comparator : A -> A -> Q).

Fixpoint insert_by (a : A) (l : list A) : list A :=
  match l with
  | [] => [a]
  | b :: l' => if Qgt_bool (comparator b a) 0 then a :: l else b :: insert_by a l'
  end.

Definition sort_by (l : list A) : list A :=
  fold_left (fun acc a => insert_by a acc) l [].
End Sort.

(** [arr[i] = v] for an index inside the array. *)
Fixpoint replace_nth {A : Type} (i : nat) (v : A) (l : list A) : list A :=
  match l, i with
  | [], _ => []
  | _ :: l', O => v :: l'
  | a :: l', S i' => a :: replace_nth i' v l'
  end.

(** ** Edge Table and Active Edge Table (lines 71-98)

    [Ref] is the type of references to edge objects and [deref] reads the
    object a reference points to. *)

Section Tables.
Context {Ref : Type} (deref : Ref -> Edge).

(** [while (ET.length > 0 && yScan === getYMin(ET[ET.length - 1]))
       AET.push(ET.pop());]
    [move_loop] receives the Edge Table reversed, so that its last element,
    the one [pop] removes, is the head of the list. *)
Fixpoint move_loop (yScan : Q) (revET : list Ref) (AET : list Ref)
  : list Ref * list Ref :=
  match revET with
  | [] => ([], AET)
  | e :: revET' =>
      if Qeq_bool yScan (getYMin (deref e))
      then move_loop yScan revET' (AET ++ [e])
      else (revET, AET)
  end.

Definition moveEdges (yScan : Q) (ET AET : list Ref) : list Ref * list Ref :=
  let '(revET', AET') := move_loop yScan (rev ET) AET in (rev revET', AET').

(** [for (let i = 0; i < AET.length; i++)] with swap-with-last removal;
    [i--] followed by [i++] leaves [i] unchanged.  Each pass lowers
    [AET.length - i], so [AET.length] passes are enough. *)
Fixpoint removeEdges_loop (fuel : nat) (yScan : Q) (i : nat) (AET : list Ref)
  : list Ref :=
  match fuel with
  | O => AET
  | S fuel' =>
      match nth_error AET i with
      | None => AET
      | Some e =>
          if Qle_bool (getYMax (deref e)) yScan
          then
            let last_e := last AET e in
            let AET' := removelast AET in
            if Nat.ltb i (length AET')
            then removeEdges_loop fuel' yScan i (replace_nth i last_e AET')
            else removeEdges_loop fuel' yScan (S i) AET'
          else removeEdges_loop fuel' yScan (S i) AET
      end
  end.

Definition removeEdges (yScan : Q) (AET : list Ref) : list Ref :=
  removeEdges_loop (length AET) yScan 0 AET.

(** comparator of the Edge Table: [getYMin(e2) - getYMin(e1)] *)
Definition et_cmp (e1 e2 : Ref) : Q := getYMin (deref e2) - getYMin (deref e1).

(** comparator of the Active Edge Table (lines 162-165) *)
Definition aet_cmp (e1 e2 : Ref) : Q :=
  let cmp := getXofYMin (deref e1) - getXofYMin (deref e2) in
  if Qeq_bool cmp 0 then getXofYMax (deref e1) - getXofYMax (deref e2) else cmp.

Definition getSpans (yScan : Q) (AET : list Ref) : list XYPoint :=
  map (fun edge => mkPoint (lerp yScan (deref edge)) yScan) AET.
End Tables.

(** ** Spans (lines 100-145)

    [spans[i + 1]] is [None] past the end of the array ([undefined]);
    reading [point2.x] on it throws a [TypeError]. *)

(** [for (let { x } = point1; x < point2.x; x++)]: the loop runs
    [ceil(point2.x - point1.x)] times when that is positive. *)
Fixpoint collect_loop (fuel : nat) (xv xend yv : Q) : list XYPoint :=
  match fuel with
  | O => []
  | S fuel' =>
      if Qlt_bool xv xend then mkPoint xv yv :: collect_loop fuel' (xv + 1) xend yv else []
  end.

Definition span_fuel (point1 point2 : XYPoint) : nat :=
  Z.to_nat (Qceiling (x point2 - x point1)).

Definition collectSpan (point1 : XYPoint) (point2 : option XYPoint) (yv : Q)
  : option (list XYPoint) :=
  match point2 with
  | None => None
  | Some point2 => Some (collect_loop (span_fuel point1 point2) (x point1) (x point2) yv)
  end.

(** [arrays.reduce((acc, v) => acc.concat(v), [])] *)
Definition flatten {A : Type} (arrays : list (list A)) : list A :=
  fold_left (fun acc v => acc ++ v) arrays [].

(** [for (let i = 0; i < spans.length; i += 2)] pairing [spans[i]] with
    [spans[i + 1]]. *)
Fixpoint gatherSpans_loop (spans : list XYPoint) (yScan : Q)
  : option (list (list XYPoint)) :=
  match spans with
  | [] => Some []
  | [point1] =>
      match collectSpan point1 None yScan with
      | None => None
      | Some span => Some [span]
      end
  | point1 :: point2 :: rest =>
      match collectSpan point1 (Some point2) yScan with
      | None => None
      | Some span =>
          match gatherSpans_loop rest yScan with
          | None => None
          | Some spans' => Some (span :: spans')
          end
      end
  end.

Definition gatherSpans (spans : list XYPoint) (yScan : Q) : option (list XYPoint) :=
  match gatherSpans_loop spans yScan with
  | None => None
  | Some gathered => Some (flatten gathered)
  end.

(** ** Pixel buffer (lines 11-20, 110-120, 135-145)

    A [Uint8ClampedArray] is a list of bytes; a write at an index that is not
    an integer inside the array is ignored, as typed arrays do. *)

Definition set_byte (data : list Z) (index : Q) : list Z :=
  let i := Qred index in
  if ((Qden i =? 1)%positive && (0 <=? Qnum i)%Z && (Qnum i <? Z.of_nat (length data))%Z)
  then replace_nth (Z.to_nat (Qnum i)) 255%Z data
  else data.

Definition bindSetPixelWhite (data : list Z) (width : nat) (xv yv : Q) : list Z :=
  let base := (inject_Z (Z.of_nat width) * yv + xv) * 4 in
  set_byte (set_byte (set_byte (set_byte data base) (base + 1)) (base + 2)) (base + 3).

Fixpoint fill_loop (setPixelAt : list Z -> Q -> Q -> list Z)
  (fuel : nat) (xv xend yv : Q) (data : list Z) : list Z :=
  match fuel with
  | O => data
  | S fuel' =>
      if Qlt_bool xv xend
      then fill_loop setPixelAt fuel' (xv + 1) xend yv (setPixelAt data xv yv)
      else data
  end.

Definition fillSpan (point1 : XYPoint) (point2 : option XYPoint) (yv : Q)
  (setPixelAt : list Z -> Q -> Q -> list Z) (data : list Z) : option (list Z) :=
  match point2 with
  | None => None
  | Some point2 =>
      Some (fill_loop setPixelAt (span_fuel point1 point2) (x point1) (x point2) yv data)
  end.

Fixpoint drawSpans (spans : list XYPoint) (yScan : Q)
  (setPixelAt : list Z -> Q -> Q -> list Z) (data : list Z) : option (list Z) :=
  match spans with
  | [] => Some data
  | [point1] => fillSpan point1 None yScan setPixelAt data
  | point1 :: point2 :: rest =>
      match fillSpan point1 (Some point2) yScan setPixelAt data with
      | None => None
      | Some data' => drawSpans rest yScan setPixelAt data'
      end
  end.

(** ** The state of a call

    The store reachable by one call: the caller's array [points], the edge
    objects allocated by [pointsToEdges] (a reference is an index into
    [s_edges]), and the call's own [ET], [AET], [yScan] and
    [gatheredSpans]. *)

Record Store := mkStore {
  s_points : list XYPoint;
  s_edges : list Edge;
  s_ET : list nat;
  s_AET : list nat;
  s_yScan : Q;
  s_gathered : list (list XYPoint)
}.

Definition dummy_edge : Edge := mkEdge (mkPoint 0 0) (mkPoint 0 0).

Definition edge_at (edges : list Edge) (r : nat) : Edge := nth r edges dummy_edge.

(** [arr[arr.length - 1]], [None] for [undefined] *)
Definition last_elem {A : Type} (l : list A) : option A :=
  match rev l with
  | [] => None
  | a :: _ => Some a
  end.

(** Lines 151-154 / 189-192: build and sort the Edge Table, then read the
    start scanline from its last element (a [TypeError] when it is empty). *)
Definition slpf_init (st : Store) : option Store :=
  let points := s_points st in
  let edges := pointsToEdges points in
  let ET := sort_by (et_cmp (edge_at edges)) (seq 0 (length edges)) in
  match last_elem ET with
  | None => None
  | Some r =>
      Some {| s_points := points; s_edges := edges; s_ET := ET; s_AET := [];
              s_yScan := getYMin (edge_at edges r); s_gathered := [] |}
  end.

(** [ET.length > 0 || AET.length > 0] *)
Definition loop_cond (st : Store) : bool :=
  negb (match s_ET st, s_AET st with [], [] => true | _, _ => false end).

(** Lines 159-167 / 196-204: manage the AET and compute the spans. *)
Definition manage_AET (st : Store) : Store * list XYPoint :=
  let deref := edge_at (s_edges st) in
  let yScan := s_yScan st in
  let '(ET1, AET1) := moveEdges deref yScan (s_ET st) (s_AET st) in
  let AET2 := removeEdges deref yScan AET1 in
  let AET3 := sort_by (aet_cmp deref) AET2 in
  ({| s_points := s_points st; s_edges := s_edges st; s_ET := ET1; s_AET := AET3;
      s_yScan := yScan; s_gathered := s_gathered st |},
   getSpans deref yScan AET3).

(** One pass of the [while] body of [slpfPoints] (lines 159-169). *)
Definition scan_body (st : Store) : option Store :=
  let '(st1, spans) := manage_AET st in
  match gatherSpans spans (s_yScan st1) with
  | None => None
  | Some g =>
      Some {| s_points := s_points st1; s_edges := s_edges st1; s_ET := s_ET st1;
              s_AET := s_AET st1; s_yScan := s_yScan st1 + 1;
              s_gathered := s_gathered st1 ++ [g] |}
  end.

Fixpoint slpf_loop (fuel : nat) (st : Store) : outcome (list XYPoint) * Store :=
  match fuel with
  | O => (OutOfFuel, st)
  | S fuel' =>
      if loop_cond st then
        match scan_body st with
        | None => (Thrown, st)
        | Some st' => slpf_loop fuel' st'
        end
      else (Returned (flatten (s_gathered st)), st)
  end.

(** [slpfPoints] run on a store; the argument is the array [s_points]. *)
Definition slpfPoints_call (fuel : nat) (st : Store) : outcome (list XYPoint) * Store :=
  if Nat.ltb (length (s_points st)) 3 then (Returned [], st)
  else match slpf_init st with
       | None => (Thrown, st)
       | Some st0 => slpf_loop fuel st0
       end.

Definition fresh_store (points : list XYPoint) : Store :=
  {| s_points := points; s_edges := []; s_ET := []; s_AET := []; s_yScan := 0;
     s_gathered := [] |}.

Definition slpfPoints (fuel : nat) (points : list XYPoint) : outcome (list XYPoint) :=
  fst (slpfPoints_call fuel (fresh_store points)).

(** ** slpfFilledArray (lines 177-208) *)

Record ImageBitmap := mkImageBitmap { width : nat; height : nat }.

Inductive JSValue :=
| Undefined
| Uint8ClampedArray (data : list Z).

(** One pass of the [while] body of [slpfFilledArray] (lines 196-206). *)
Definition fill_body (w : nat) (st : Store) (img : list Z) : option (Store * list Z) :=
  let '(st1, spans) := manage_AET st in
  match drawSpans spans (s_yScan st1) (fun data => bindSetPixelWhite data w) img with
  | None => None
  | Some img' =>
      Some ({| s_points := s_points st1; s_edges := s_edges st1; s_ET := s_ET st1;
               s_AET := s_AET st1; s_yScan := s_yScan st1 + 1;
               s_gathered := s_gathered st1 |}, img')
  end.

Fixpoint fill_scan_loop (w : nat) (fuel : nat) (st : Store) (img : list Z)
  : outcome (list Z) :=
  match fuel with
  | O => OutOfFuel
  | S fuel' =>
      if loop_cond st then
        match fill_body w st img with
        | None => Thrown
        | Some (st', img') => fill_scan_loop w fuel' st' img'
        end
      else Returned img
  end.

(** What the body leaves behind when it completes: [None] when it returned
    before allocating [img], otherwise the painted [img]. *)
Definition slpfFilledArray_body (fuel : nat) (points : list XYPoint)
  (imageBitmap : ImageBitmap) : outcome (option (list Z)) :=
  if Nat.ltb (length points) 3 then Returned None
  else
    let w := width imageBitmap in
    let img := repeat 0%Z (w * height imageBitmap * 4) in
    match slpf_init (fresh_store points) with
    | None => Thrown
    | Some st0 =>
        match fill_scan_loop w fuel st0 img with
        | Returned img' => Returned (Some img')
        | Thrown => Thrown
        | OutOfFuel => OutOfFuel
        end
    end.

(** Both [return;] (line 182) and falling off the end of the body (line 208)
    return [undefined]. *)
Definition slpfFilledArray (fuel : nat) (points : list XYPoint)
  (imageBitmap : ImageBitmap) : outcome JSValue :=
  match slpfFilledArray_body fuel points imageBitmap with
  | Returned _ => Returned Undefined
  | Thrown => Thrown
  | OutOfFuel => OutOfFuel
  end.

(** ** Concrete inputs *)

Definition pt (a b : Q) : XYPoint := mkPoint a b.

Definition square4 : list XYPoint := [pt 0 0; pt 4 0; pt 4 4; pt 0 4].
Definition triangle8 : list XYPoint := [pt 0 0; pt 4 4; pt 8 0].
Definition vertical_triangle : list XYPoint := [pt 0 0; pt 0 2; pt 2 1].
Definition half_step_triangle : list XYPoint := [pt 0 0; pt 1 1; pt 2 (1 # 2)].

(** The state before the loop and after its first pass, for [triangle8]. *)
Definition triangle8_st0 : Store :=
  match slpf_init (fresh_store triangle8) with Some st => st | None => fresh_store [] end.

Definition triangle8_st1 : Store :=
  match scan_body triangle8_st0 with Some st => st | None => fresh_store [] end.

(** The state after two passes of the loop, for [half_step_triangle]. *)
Definition half_step_st2 : Store :=
  match slpf_init (fresh_store half_step_triangle) with
  | Some st0 =>
      match scan_body st0 with
      | Some st1 => match scan_body st1 with Some st2 => st2 | None => st1 end
      | None => st0
      end
  | None => fresh_store []
  end.

Definition vertical_line : list XYPoint := [pt 1 0; pt 1 1; pt 1 2].

(** Edges of the closed loop as the spec words them: the [i]-th edge joins
    point [i - 1] (point [n - 1] for [i = 0]) to point [i]. *)
Definition loop_edges (points : list XYPoint) : list Edge :=
  let n := length points in
  map (fun i => mkEdge (nth ((i + n - 1) mod n) points (pt 0 0)) (nth i points (pt 0 0)))
      (seq 0 n).

(** Consecutive pairs starting from [a]. *)
Fixpoint pairs_from (a : XYPoint) (l : list XYPoint) : list Edge :=
  match l with
  | [] => []
  | b :: l' => mkEdge a b :: pairs_from b l'
  end.

Definition differs_in_x (e : Edge) : bool :=
  negb (Qeq_bool (x (point1 e)) (x (point2 e))).


(** A comparator [key(e2) - key(e1)], as the Edge Table's, and the order
    it sorts by (descending key). *)
Definition desc_cmp {A : Type} (key : A -> Q) (e1 e2 : A) : Q := key e2 - key e1.

Definition key_desc {A : Type} (key : A -> Q) (a b : A) : Prop := key b <= key a.

(** ** Runs of the scanline loop *)

(** One pass of the [while] loop of [slpfPoints]: the condition holds and
    the body completes. *)
Definition scan_step (st st' : Store) : Prop :=
  loop_cond st = true /\ scan_body st = Some st'.

Inductive reach : Store -> Store -> Prop :=
| reach_refl st : reach st st
| reach_step st st' st'' : scan_step st st' -> reach st' st'' -> reach st st''.

(** A number that is an integer, written with denominator 1. *)
Definition is_int (q : Q) : Prop := Qden q = 1%positive.

(** A JS number within [-2^52, 2^52].  There, [v + 1] is strictly above [v]
    (so the [x++] and [yScan++] loops cannot stall), integers are exact
    binary64 values, and sums and differences of such integers are exact. *)
Definition in_safe_range (q : Q) : Prop :=
  - inject_Z (2 ^ 52) <= q <= inject_Z (2 ^ 52).

Definition safe_point (p : XYPoint) : Prop := in_safe_range (x p) /\ in_safe_range (y p).

(** A point with an integer [x] and both coordinates in the safe range. *)
Definition safe_int_point (p : XYPoint) : Prop := is_int (x p) /\ safe_point p.

(** An edge whose endpoints have integer [y] between [lo] and [hi]. *)
Definition good_edge (lo hi : Z) (e : Edge) : Prop :=
  is_int (y (point1 e)) /\ is_int (y (point2 e)) /\
  (lo <= Qnum (y (point1 e)) <= hi)%Z /\ (lo <= Qnum (y (point2 e)) <= hi)%Z.

Definition ys_of (points : list XYPoint) : list Z := map (fun q => Qnum (y q)) points.

Definition minY (points : list XYPoint) : Z :=
  fold_left Z.min (ys_of points) (hd 0%Z (ys_of points)).

Definition maxY (points : list XYPoint) : Z :=
  fold_left Z.max (ys_of points) (hd 0%Z (ys_of points)).

(** Invariant of the loop of [slpfPoints] at scanline [z]. *)
Definition scan_inv (lo hi : Z) (st : Store) (z : Z) : Prop :=
  let deref := edge_at (s_edges st) in
  is_int (s_yScan st) /\ Qnum (s_yScan st) = z /\
  (forall r, In r (s_ET st ++ s_AET st) -> good_edge lo hi (deref r)) /\
  (forall r, In r (s_ET st) -> (z <= Qnum (getYMin (deref r)))%Z) /\
  (forall r, In r (s_AET st) -> (z <= Qnum (getYMax (deref r)))%Z) /\
  StronglySorted (fun a b => getYMin (deref b) <= getYMin (deref a)) (s_ET st).

(** ** Painting, tables and bounds *)

(** The calls [setPixelAt(p.x, p.y)] for the points [pts], in order. *)
Definition paint (setPixelAt : list Z -> Q -> Q -> list Z) (pts : list XYPoint) (data : list Z)
  : list Z :=
  fold_left (fun d p => setPixelAt d (x p) (y p)) pts data.

(** The store with its gathered spans dropped: what [slpfFilledArray] keeps. *)
Definition tables_of (st : Store) : Store :=
  {| s_points := s_points st; s_edges := s_edges st; s_ET := s_ET st; s_AET := s_AET st;
     s_yScan := s_yScan st; s_gathered := [] |}.

(** The order the AET comparator sorts by: [getXofYMin], ties by [getXofYMax]. *)
Definition aet_le (deref : nat -> Edge) (a b : nat) : Prop :=
  getXofYMin (deref a) < getXofYMin (deref b) \/
  (getXofYMin (deref a) == getXofYMin (deref b) /\ getXofYMax (deref a) <= getXofYMax (deref b)).

(** Every edge of the AET has its minimum [y] at or below the scanline. *)
Definition aet_started (st : Store) : Prop :=
  forall r, In r (s_AET st) -> getYMin (edge_at (s_edges st) r) <= s_yScan st.

(** A point of the input inside a box, and a filled point inside the box
    [floor(lox) <= x < hix], [loy <= y < hiy]. *)
Definition in_box (lox hix loy hiy : Q) (q : XYPoint) : Prop :=
  lox <= x q <= hix /\ loy <= y q <= hiy.

Definition in_fill_box (lox hix loy hiy : Q) (p : XYPoint) : Prop :=
  inject_Z (Qfloor lox) <= x p < hix /\ loy <= y p < hiy.

(** ** Edge builder *)

Lemma pointsToEdges_loop_filter (a : XYPoint) (l : list XYPoint) :
  pointsToEdges_loop a l = filter differs_in_x (pairs_from a l).
Proof.
  revert a; induction l as [|b l IH]; intros a; simpl; [reflexivity|].
  unfold differs_in_x; simpl.
  destruct (negb (Qeq_bool (x a) (x b))); rewrite IH; reflexivity.
Qed.

Lemma pairs_from_length (a : XYPoint) (l : list XYPoint) :
  length (pairs_from a l) = length l.
Proof. revert a; induction l; simpl; auto. Qed.

Lemma pairs_from_nth (a : XYPoint) (l : list XYPoint) (i : nat) d d' :
  (i < length l)%nat ->
  nth i (pairs_from a l) d = mkEdge (nth i (a :: l) d') (nth i l d').
Proof.
  revert a i; induction l as [|b l IH]; intros a i Hi; simpl in Hi; [lia|].
  destruct i as [|i]; simpl; [reflexivity|].
  rewrite (IH b i) by lia; reflexivity.
Qed.

Lemma pointsToEdges_spec (points : list XYPoint) :
  pointsToEdges points = filter differs_in_x (loop_edges points).
Proof.
  unfold pointsToEdges, loop_edges.
  destruct (rev points) as [|l_pt r] eqn:Hr.
  - apply (f_equal (@rev XYPoint)) in Hr; rewrite rev_involutive in Hr; subst; reflexivity.
  - rewrite pointsToEdges_loop_filter; f_equal.
    assert (Hlast : nth (length points - 1) points (pt 0 0) = l_pt).
    { rewrite <- (rev_involutive points), Hr; simpl rev.
      rewrite length_app, length_rev; simpl length.
      rewrite app_nth2; rewrite length_rev; [|lia].
      replace (length r + 1 - 1 - length r)%nat with 0%nat by lia; reflexivity. }
    assert (Hn : length points <> 0%nat).
    { intro H0; apply length_zero_iff_nil in H0; subst; discriminate. }
    apply nth_ext with (d := dummy_edge) (d' := dummy_edge).
    + rewrite pairs_from_length, length_map, length_seq; reflexivity.
    + intros i Hi; rewrite pairs_from_length in Hi.
      rewrite (pairs_from_nth _ _ _ _ (pt 0 0)) by exact Hi.
      set (f := fun i0 => mkEdge (nth ((i0 + length points - 1) mod length points)
                                   points (pt 0 0)) (nth i0 points (pt 0 0))).
      rewrite (nth_indep (map f (seq 0 (length points))) dummy_edge (f 0%nat))
        by (rewrite length_map, length_seq; exact Hi).
      rewrite map_nth, seq_nth by exact Hi; unfold f; simpl.
      f_equal.
      destruct i as [|i].
      * rewrite Nat.mod_small by lia; simpl; symmetry; exact Hlast.
      * replace (S i + length points - 1)%nat with (i + 1 * length points)%nat by lia.
        rewrite Nat.Div0.mod_add, Nat.mod_small by lia; reflexivity.
Qed.

(** ** Span pairing *)

Lemma gatherSpans_loop_odd (n : nat) (spans : list XYPoint) (yScan : Q) :
  (length spans <= n)%nat -> Nat.odd (length spans) = true ->
  gatherSpans_loop spans yScan = None.
Proof.
  revert spans; induction n as [|n IH]; intros spans Hlen Hodd.
  - destruct spans; [discriminate | simpl in Hlen; lia].
  - destruct spans as [|p1 [|p2 rest]]; [discriminate | reflexivity |].
    simpl in Hlen, Hodd |- *.
    rewrite (IH rest) by (auto; lia); reflexivity.
Qed.

Lemma drawSpans_odd (n : nat) (spans : list XYPoint) (yScan : Q) setPixelAt data :
  (length spans <= n)%nat -> Nat.odd (length spans) = true ->
  drawSpans spans yScan setPixelAt data = None.
Proof.
  revert spans data; induction n as [|n IH]; intros spans data Hlen Hodd.
  - destruct spans; [discriminate | simpl in Hlen; lia].
  - destruct spans as [|p1 [|p2 rest]]; [discriminate | reflexivity |].
    simpl in Hlen, Hodd |- *.
    apply IH; auto; lia.
Qed.

(** ** Claims *)

(** C1 (code_bug): for the square [(0,0),(4,0),(4,4),(0,4)] the edge builder
    keeps the two horizontal sides and drops the two vertical ones, so the
    scanline loop never has a pair of edges to span and [slpfPoints]
    returns the empty list instead of the 16 points [0 <= x, y < 4]. *)
Theorem slpfPoints_square4_empty :
  pointsToEdges square4 = [mkEdge (pt 0 0) (pt 4 0); mkEdge (pt 4 4) (pt 0 4)] /\
  slpfPoints 10 square4 = Returned [].
Proof. split; vm_compute; reflexivity. Qed.

(** C3 (counterexample): a one-point span list is paired with [undefined]
    and [gatherSpans] throws; the fill of the triangle
    [(0,0),(0,2),(2,1)] reaches such a scanline and throws too. *)
Lemma gatherSpans_odd_cex :
  gatherSpans [pt 0 0] 0 = None /\ slpfPoints 10 vertical_triangle = Thrown.
Proof. split; vm_compute; reflexivity. Qed.

(** C3 (amended): there is no parity check; on every odd-length span list
    whose [x] values lie in [-2^52, 2^52] (so that the [x++] loop of every
    earlier span ends), the last point is paired with [undefined], reading
    its [x] throws a [TypeError], and both [gatherSpans] and [drawSpans]
    throw. *)
Theorem gatherSpans_odd_throws (spans : list XYPoint) (yScan : Q)
  (Hsafe : Forall (fun p => in_safe_range (x p)) spans)
  (Hodd : Nat.odd (length spans) = true) :
  gatherSpans spans yScan = None /\
  (forall setPixelAt data, drawSpans spans yScan setPixelAt data = None).
Proof.
  split.
  - unfold gatherSpans; rewrite (gatherSpans_loop_odd (length spans)); auto.
  - intros; apply (drawSpans_odd (length spans)); auto.
Qed.

Lemma gatherSpans_odd_throws_witness :
  Forall (fun p => in_safe_range (x p)) [pt 0 0; pt 1 0; pt 3 0] /\
  Nat.odd (length [pt 0 0; pt 1 0; pt 3 0]) = true /\
  gatherSpans [pt 0 0; pt 1 0; pt 3 0] 0 = None.
Proof.
  assert (Hsafe : Forall (fun p => in_safe_range (x p)) [pt 0 0; pt 1 0; pt 3 0])
    by (repeat apply Forall_cons; try apply Forall_nil;
        split; apply Qle_bool_iff; vm_compute; reflexivity).
  split; [exact Hsafe|]; split; [reflexivity|].
  apply (gatherSpans_odd_throws [pt 0 0; pt 1 0; pt 3 0] 0 Hsafe); reflexivity.
Defined.

(** C4: with fewer than three points [slpfPoints] returns the empty list
    and [slpfFilledArray] returns before allocating its buffer, so nothing
    is painted and it returns [undefined]. *)
Theorem fewer_than_three_points_empty (points : list XYPoint)
  (Hlen : (length points < 3)%nat) :
  forall fuel imageBitmap,
    slpfPoints fuel points = Returned [] /\
    slpfFilledArray_body fuel points imageBitmap = Returned None /\
    slpfFilledArray fuel points imageBitmap = Returned Undefined.
Proof.
  intros fuel bmp.
  assert (Hb : Nat.ltb (length points) 3 = true) by (apply Nat.ltb_lt; exact Hlen).
  unfold slpfPoints, slpfPoints_call, slpfFilledArray, slpfFilledArray_body; simpl.
  rewrite Hb; auto.
Qed.

Lemma fewer_than_three_points_empty_witness :
  (length [pt 1 2; pt 3 4] < 3)%nat /\
  slpfPoints 7 [pt 1 2; pt 3 4] = Returned [].
Proof.
  split; [simpl; lia|].
  apply (fewer_than_three_points_empty [pt 1 2; pt 3 4]); [simpl; lia | exact (mkImageBitmap 1 1)].
Defined.

(** C5: whenever [slpfFilledArray] returns, it returns [undefined]: the
    painted buffer never reaches the caller. *)
Theorem slpfFilledArray_returns_undefined (fuel : nat) (points : list XYPoint)
  (imageBitmap : ImageBitmap) :
  match slpfFilledArray fuel points imageBitmap with
  | Returned v => v = Undefined
  | Thrown | OutOfFuel => True
  end.
Proof.
  unfold slpfFilledArray.
  destruct (slpfFilledArray_body fuel points imageBitmap); reflexivity.
Qed.

(** The buffer is painted all the same: the triangle [(0,0),(4,4),(8,0)]
    whitens the first pixel of a 9x5 bitmap, which the call then drops. *)
Lemma slpfFilledArray_paints_then_drops :
  (exists img, slpfFilledArray_body 10 triangle8 (mkImageBitmap 9 5) = Returned (Some img)
               /\ firstn 4 img = [255; 255; 255; 255]%Z) /\
  slpfFilledArray 10 triangle8 (mkImageBitmap 9 5) = Returned Undefined.
Proof.
  split; [|vm_compute; reflexivity].
  eexists; split; [vm_compute; reflexivity|].
  vm_compute; reflexivity.
Qed.

(** C6: [pointsToEdges] forms one edge per consecutive pair of the closed
    loop (point [i - 1] to point [i], the first edge wrapping from the last
    point), keeps exactly those whose endpoints differ in [x], in walk order
    and with their endpoints as met. *)
Theorem pointsToEdges_walk (points : list XYPoint) :
  length (loop_edges points) = length points /\
  pointsToEdges points = filter differs_in_x (loop_edges points).
Proof.
  split.
  - unfold loop_edges; rewrite length_map, length_seq; reflexivity.
  - apply pointsToEdges_spec.
Qed.

(** C8: for an edge whose endpoints differ in [y], [lerp] is the floor of
    [point1.x + (y - point1.y) / (point2.y - point1.y) * (point2.x - point1.x)]. *)
Theorem lerp_floor_interpolation (yScan : Q) (p1 p2 : XYPoint)
  (Hy : ~ y p1 == y p2) :
  lerp yScan (mkEdge p1 p2) =
  inject_Z (Qfloor (x p1 + (yScan - y p1) / (y p2 - y p1) * (x p2 - x p1))).
Proof.
  change (lerp yScan (mkEdge p1 p2)) with
    (inject_Z (Qfloor (((yScan - y p1) / (y p2 - y p1)) * (x p2 - x p1) + x p1))).
  f_equal; apply Qfloor_comp; apply Qplus_comm.
Qed.

Lemma lerp_floor_interpolation_witness :
  ~ y (pt 0 0) == y (pt 3 2) /\
  lerp 1 (mkEdge (pt 0 0) (pt 3 2)) = inject_Z (Qfloor (0 + (1 - 0) / (2 - 0) * (3 - 0))).
Proof.
  split; [unfold Qeq; simpl; lia|].
  apply (lerp_floor_interpolation 1 (pt 0 0) (pt 3 2)); unfold Qeq; simpl; lia.
Defined.

(** C10: with at least three points all on one vertical line every edge is
    dropped, the Edge Table is empty, and reading [getYMin] of its missing
    last element throws, whatever the fuel. *)
Theorem same_x_points_throw (points : list XYPoint) (c : Q)
  (Hlen : (3 <= length points)%nat) (Hx : Forall (fun q => x q == c) points) :
  pointsToEdges points = [] /\ slpf_init (fresh_store points) = None /\
  forall fuel, slpfPoints fuel points = Thrown.
Proof.
  assert (Hedges : pointsToEdges points = []).
  { unfold pointsToEdges.
    destruct (rev points) as [|a r] eqn:Hr; [reflexivity|].
    assert (Ha : x a == c).
    { rewrite Forall_forall in Hx; apply Hx, in_rev; rewrite Hr; left; reflexivity. }
    clear Hr Hlen; revert a Ha; induction Hx as [|b l Hb Hl IH]; intros a Ha; [reflexivity|].
    simpl. rewrite (Qeq_eq_bool (x a) (x b)) by (rewrite Ha, Hb; reflexivity).
    simpl; apply IH; exact Hb. }
  assert (Hinit : slpf_init (fresh_store points) = None).
  { unfold slpf_init; simpl; rewrite Hedges; reflexivity. }
  split; [exact Hedges|]; split; [exact Hinit|].
  intros fuel; unfold slpfPoints, slpfPoints_call; simpl.
  assert (Hb : Nat.ltb (length points) 3 = false) by (apply Nat.ltb_ge; exact Hlen).
  rewrite Hb, Hinit; reflexivity.
Qed.

Lemma same_x_points_throw_witness :
  (3 <= length vertical_line)%nat /\ Forall (fun q => x q == 1) vertical_line /\
  slpfPoints 4 vertical_line = Thrown.
Proof.
  assert (Hx : Forall (fun q => x q == 1) vertical_line)
    by (repeat constructor).
  split; [simpl; lia|]; split; [exact Hx|].
  apply (same_x_points_throw vertical_line 1); [simpl; lia | exact Hx].
Defined.

(** ** Tables: what the moves do to the edge references *)

Section TableLemmas.
Context {Ref : Type} (deref : Ref -> Edge).

Lemma move_loop_spec (yScan : Q) (revET AET revET' AET' : list Ref) :
  move_loop deref yScan revET AET = (revET', AET') ->
  exists moved,
    revET = moved ++ revET' /\ AET' = AET ++ moved /\
    Forall (fun e => Qeq_bool yScan (getYMin (deref e)) = true) moved /\
    match revET' with
    | [] => True
    | e :: _ => Qeq_bool yScan (getYMin (deref e)) = false
    end.
Proof.
  revert AET; induction revET as [|e r IH]; intros AET H; simpl in H.
  - inversion H; subst; exists []; rewrite !app_nil_r; repeat split; constructor.
  - destruct (Qeq_bool yScan (getYMin (deref e))) eqn:He.
    + destruct (IH _ H) as (moved & H1 & H2 & H3 & H4).
      exists (e :: moved); simpl; rewrite H1, H2, <- app_assoc.
      repeat split; auto.
    + inversion H; subst; exists []; rewrite !app_nil_r; repeat split; auto.
Qed.

Lemma moveEdges_spec (yScan : Q) (ET AET ET' AET' : list Ref) :
  moveEdges deref yScan ET AET = (ET', AET') ->
  exists moved,
    ET = ET' ++ rev moved /\ AET' = AET ++ moved /\
    Forall (fun e => Qeq_bool yScan (getYMin (deref e)) = true) moved /\
    (forall e, last_elem ET' = Some e -> Qeq_bool yScan (getYMin (deref e)) = false).
Proof.
  unfold moveEdges.
  destruct (move_loop deref yScan (rev ET) AET) as [revET' AET''] eqn:Hm.
  intros H; inversion H; subst; clear H.
  destruct (move_loop_spec _ _ _ _ _ Hm) as (moved & H1 & H2 & H3 & H4).
  exists moved; split; [|split; [exact H2|split; [exact H3|]]].
  - rewrite <- (rev_involutive ET), H1, rev_app_distr; reflexivity.
  - unfold last_elem; rewrite rev_involutive; intros e He.
    destruct revET'; [discriminate|]; inversion He; subst; exact H4.
Qed.

Lemma replace_nth_length {A : Type} (i : nat) (v : A) (l : list A) :
  length (replace_nth i v l) = length l.
Proof. revert i; induction l; intros [|i]; simpl; auto. Qed.

Lemma replace_nth_perm {A : Type} (i : nat) (v e : A) (l : list A) :
  nth_error l i = Some e -> Permutation (e :: replace_nth i v l) (v :: l).
Proof.
  revert i; induction l as [|a l IH]; intros [|i] H; simpl in H; try discriminate.
  - inversion H; subst; simpl; apply perm_swap.
  - simpl. rewrite perm_swap. rewrite (IH i H). apply perm_swap.
Qed.

Lemma replace_nth_firstn {A : Type} (i : nat) (v : A) (l : list A) :
  firstn i (replace_nth i v l) = firstn i l.
Proof.
  revert i; induction l as [|a l IH]; intros [|i]; simpl; auto.
  rewrite IH; reflexivity.
Qed.

Lemma removeEdges_loop_perm (fuel : nat) (yScan : Q) (i : nat) (AET : list Ref) :
  exists removed,
    Permutation AET (removeEdges_loop deref fuel yScan i AET ++ removed).
Proof.
  revert i AET; induction fuel as [|fuel IH]; intros i AET; simpl.
  - exists []; rewrite app_nil_r; reflexivity.
  - destruct (nth_error AET i) as [e|] eqn:Hi.
    2: { exists []; rewrite app_nil_r; reflexivity. }
    assert (Hne : AET <> []) by (intro; subst; destruct i; discriminate).
    pose proof (app_removelast_last e Hne) as Hsplit.
    destruct (Qle_bool (getYMax (deref e)) yScan).
    + destruct (Nat.ltb i (length (removelast AET))) eqn:Hlt.
      * destruct (IH i (replace_nth i (last AET e) (removelast AET))) as [removed Hr].
        exists (removed ++ [e]).
        apply Nat.ltb_lt in Hlt.
        assert (Hi' : nth_error (removelast AET) i = Some e).
        { rewrite Hsplit in Hi; rewrite nth_error_app1 in Hi by exact Hlt; exact Hi. }
        rewrite app_assoc, <- Hr.
        transitivity (removelast AET ++ [last AET e]); [rewrite <- Hsplit; reflexivity|].
        etransitivity; [symmetry; apply Permutation_cons_append|].
        etransitivity; [symmetry; apply (replace_nth_perm i (last AET e) e); exact Hi'|].
        apply Permutation_cons_append.
      * destruct (IH (S i) (removelast AET)) as [removed Hr].
        exists (removed ++ [last AET e]).
        rewrite app_assoc, <- Hr, <- Hsplit; reflexivity.
    + apply IH.
Qed.

Lemma removeEdges_perm (yScan : Q) (AET : list Ref) :
  exists removed, Permutation AET (removeEdges deref yScan AET ++ removed).
Proof. apply removeEdges_loop_perm. Qed.

Lemma firstn_S_nth_error {A : Type} (i : nat) (l : list A) (e : A) :
  nth_error l i = Some e -> firstn (S i) l = firstn i l ++ [e].
Proof.
  revert i; induction l as [|a l IH]; intros [|i] H; simpl in H; try discriminate.
  - inversion H; reflexivity.
  - rewrite firstn_cons, (IH i H); reflexivity.
Qed.

Lemma removeEdges_loop_keep (fuel : nat) (yScan : Q) (i : nat) (AET : list Ref) :
  (length AET - i <= fuel)%nat ->
  Forall (fun e => Qle_bool (getYMax (deref e)) yScan = false) (firstn i AET) ->
  Forall (fun e => Qle_bool (getYMax (deref e)) yScan = false)
    (removeEdges_loop deref fuel yScan i AET).
Proof.
  revert i AET; induction fuel as [|fuel IH]; intros i AET Hf Hk; simpl.
  - rewrite firstn_all2 in Hk by lia; exact Hk.
  - destruct (nth_error AET i) as [e|] eqn:Hi.
    2: { apply nth_error_None in Hi; rewrite firstn_all2 in Hk by lia; exact Hk. }
    assert (Hlen : (i < length AET)%nat) by (apply nth_error_Some; congruence).
    assert (Hne : AET <> []) by (intro; subst; simpl in Hlen; lia).
    pose proof (app_removelast_last e Hne) as Hsplit.
    assert (HL : length AET = S (length (removelast AET))).
    { rewrite Hsplit at 1; rewrite length_app; simpl; lia. }
    destruct (Qle_bool (getYMax (deref e)) yScan) eqn:Hy.
    + destruct (Nat.ltb i (length (removelast AET))) eqn:Hlt.
      * apply Nat.ltb_lt in Hlt; apply IH.
        -- rewrite replace_nth_length; lia.
        -- rewrite replace_nth_firstn.
           rewrite Hsplit, firstn_app in Hk.
           replace (i - length (removelast AET))%nat with 0%nat in Hk by lia.
           simpl in Hk; rewrite app_nil_r in Hk; exact Hk.
      * apply Nat.ltb_ge in Hlt; apply IH; [lia|].
        rewrite firstn_all2 by lia.
        rewrite Hsplit, firstn_app, firstn_all2 in Hk by lia.
        apply Forall_app in Hk; apply Hk.
    + apply IH; [lia|].
      rewrite (firstn_S_nth_error i AET e Hi).
      apply Forall_app; split; [exact Hk|]; constructor; [exact Hy|constructor].
Qed.
End TableLemmas.

(** ** Sorting *)

Section SortLemmas.
Context {A : Type} (comparator : A -> A -> Q).

Lemma insert_by_perm (a : A) (l : list A) :
  Permutation (insert_by comparator a l) (a :: l).
Proof.
  induction l as [|b l IH]; simpl; [reflexivity|].
  destruct (Qgt_bool (comparator b a) 0); [reflexivity|].
  rewrite IH; apply perm_swap.
Qed.

Lemma sort_by_acc_perm (l acc : list A) :
  Permutation (fold_left (fun acc a => insert_by comparator a acc) l acc) (l ++ acc).
Proof.
  revert acc; induction l as [|a l IH]; intros acc; simpl; [reflexivity|].
  rewrite IH, insert_by_perm; symmetry; apply Permutation_middle.
Qed.

Lemma sort_by_perm (l : list A) : Permutation (sort_by comparator l) l.
Proof. unfold sort_by; rewrite sort_by_acc_perm, app_nil_r; reflexivity. Qed.
End SortLemmas.

Lemma Qgt_bool_true (a b : Q) : Qgt_bool a b = true <-> b < a.
Proof.
  unfold Qgt_bool; rewrite negb_true_iff; split; intros H.
  - apply Qnot_le_lt; intros H'; apply Qle_bool_iff in H'; congruence.
  - destruct (Qle_bool a b) eqn:E; [|reflexivity].
    apply Qle_bool_iff in E; exfalso; apply (Qlt_not_le _ _ H E).
Qed.

Section KeySort.
Context {A : Type} (key : A -> Q).

Lemma insert_by_desc_sorted (a : A) (l : list A) :
  StronglySorted (key_desc key) l -> StronglySorted (key_desc key) (insert_by (desc_cmp key) a l).
Proof.
  induction l as [|b l IH]; intros Hs; simpl.
  - repeat constructor.
  - inversion Hs as [|b' l' Hs' Hall]; subst.
    destruct (Qgt_bool (desc_cmp key b a) 0) eqn:Hc.
    + apply Qgt_bool_true in Hc; unfold desc_cmp in Hc.
      assert (Hab : key b < key a).
      { apply Qlt_minus_iff; exact Hc. }
      constructor; [exact Hs|].
      constructor; [unfold key_desc; apply Qlt_le_weak; exact Hab|].
      eapply Forall_impl; [|exact Hall].
      intros c Hc'; unfold key_desc in *; apply Qle_trans with (key b);
        [exact Hc'|apply Qlt_le_weak; exact Hab].
    + assert (Hab : key a <= key b).
      { apply Qnot_lt_le; intros Hlt; apply Qlt_minus_iff in Hlt.
        apply (proj2 (Qgt_bool_true _ _)) in Hlt; unfold desc_cmp, Qminus in Hc; congruence. }
      constructor; [apply IH; exact Hs'|].
      apply (Permutation_Forall (Permutation_sym (insert_by_perm (desc_cmp key) a l))).
      constructor; [exact Hab|exact Hall].
Qed.

Lemma sort_by_desc_sorted (l : list A) :
  StronglySorted (key_desc key) (sort_by (desc_cmp key) l).
Proof.
  unfold sort_by.
  assert (Hgen : forall acc, StronglySorted (key_desc key) acc ->
    StronglySorted (key_desc key) (fold_left (fun acc a => insert_by (desc_cmp key) a acc) l acc)).
  { induction l as [|a l IH]; intros acc Hacc; simpl; [exact Hacc|].
    apply IH, insert_by_desc_sorted, Hacc. }
  apply Hgen; constructor.
Qed.
End KeySort.

Lemma et_cmp_desc (deref : nat -> Edge) :
  et_cmp deref = desc_cmp (fun r => getYMin (deref r)).
Proof. reflexivity. Qed.

(** ** One pass of the loop *)

Lemma manage_AET_spec (st st1 : Store) (spans : list XYPoint) :
  manage_AET st = (st1, spans) ->
  let deref := edge_at (s_edges st) in
  s_points st1 = s_points st /\ s_edges st1 = s_edges st /\
  s_yScan st1 = s_yScan st /\ s_gathered st1 = s_gathered st /\
  exists moved removed,
    s_ET st = s_ET st1 ++ rev moved /\
    Forall (fun e => Qeq_bool (s_yScan st) (getYMin (deref e)) = true) moved /\
    (forall e, last_elem (s_ET st1) = Some e ->
               Qeq_bool (s_yScan st) (getYMin (deref e)) = false) /\
    Permutation (s_AET st ++ moved) (s_AET st1 ++ removed) /\
    Forall (fun e => Qle_bool (getYMax (deref e)) (s_yScan st) = false) (s_AET st1).
Proof.
  unfold manage_AET.
  destruct (moveEdges (edge_at (s_edges st)) (s_yScan st) (s_ET st) (s_AET st))
    as [ET1 AET1] eqn:Hm.
  intros H; inversion H; subst; clear H; simpl.
  repeat split; try reflexivity.
  destruct (moveEdges_spec _ _ _ _ _ _ Hm) as (moved & H1 & H2 & H3 & H4).
  destruct (removeEdges_perm (edge_at (s_edges st)) (s_yScan st) AET1) as [removed Hr].
  exists moved, removed.
  split; [exact H1|]; split; [exact H3|]; split; [exact H4|]; split.
  - rewrite <- H2, sort_by_perm; exact Hr.
  - apply (Permutation_Forall (Permutation_sym (sort_by_perm _ _))).
    apply removeEdges_loop_keep; [lia|constructor].
Qed.

Lemma scan_body_spec (st st' : Store) :
  scan_body st = Some st' ->
  let deref := edge_at (s_edges st) in
  s_points st' = s_points st /\ s_edges st' = s_edges st /\
  s_yScan st' = s_yScan st + 1 /\
  exists moved removed,
    s_ET st = s_ET st' ++ rev moved /\
    Forall (fun e => Qeq_bool (s_yScan st) (getYMin (deref e)) = true) moved /\
    (forall e, last_elem (s_ET st') = Some e ->
               Qeq_bool (s_yScan st) (getYMin (deref e)) = false) /\
    Permutation (s_AET st ++ moved) (s_AET st' ++ removed) /\
    Forall (fun e => Qle_bool (getYMax (deref e)) (s_yScan st) = false) (s_AET st').
Proof.
  unfold scan_body.
  destruct (manage_AET st) as [st1 spans] eqn:Hm.
  destruct (gatherSpans spans (s_yScan st1)) as [g|]; [|discriminate].
  intros H; inversion H; subst; clear H; simpl.
  destruct (manage_AET_spec _ _ _ Hm) as (Hp & He & Hy & _ & Hrest).
  rewrite Hy; repeat split; auto.
Qed.

(** The references of [ET] and [AET] after a pass are those before it,
    less some removed ones; [ET] only loses references from its end. *)
Lemma scan_body_tables (st st' : Store) :
  scan_body st = Some st' ->
  s_edges st' = s_edges st /\
  (exists moved, s_ET st = s_ET st' ++ moved) /\
  exists removed, Permutation (s_ET st ++ s_AET st) (s_ET st' ++ s_AET st' ++ removed).
Proof.
  intros H; destruct (scan_body_spec _ _ H) as (_ & He & _ & moved & removed & H1 & _ & _ & H4 & _).
  split; [exact He|]; split; [exists (rev moved); exact H1|].
  exists removed; rewrite H1, <- app_assoc, <- H4.
  apply Permutation_app_head; rewrite Permutation_app_comm.
  apply Permutation_app_head; symmetry; apply Permutation_rev.
Qed.

Lemma reach_tables (st st' : Store) :
  reach st st' ->
  s_edges st' = s_edges st /\
  (exists moved, s_ET st = s_ET st' ++ moved) /\
  exists removed, Permutation (s_ET st ++ s_AET st) (s_ET st' ++ s_AET st' ++ removed).
Proof.
  induction 1 as [st|st st1 st2 [_ Hstep] _ IH].
  - split; [reflexivity|]; split; exists []; rewrite ?app_nil_r; reflexivity.
  - destruct (scan_body_tables _ _ Hstep) as (He1 & [m1 Hm1] & [r1 Hr1]).
    destruct IH as (He2 & [m2 Hm2] & [r2 Hr2]).
    split; [congruence|]; split.
    + exists (m2 ++ m1); rewrite Hm1, Hm2, app_assoc; reflexivity.
    + exists (r2 ++ r1); rewrite Hr1, app_assoc, Hr2, <- !app_assoc; reflexivity.
Qed.

Lemma slpf_init_tables (points : list XYPoint) (st0 : Store) :
  slpf_init (fresh_store points) = Some st0 ->
  s_points st0 = points /\ s_edges st0 = pointsToEdges points /\ s_AET st0 = [] /\
  Permutation (s_ET st0) (seq 0 (length (pointsToEdges points))).
Proof.
  unfold slpf_init; simpl.
  destruct (last_elem _); [|discriminate].
  intros H; inversion H; subst; simpl.
  repeat split; apply sort_by_perm.
Qed.

Lemma reach_trans (st1 st2 st3 : Store) : reach st1 st2 -> reach st2 st3 -> reach st1 st3.
Proof.
  induction 1 as [st|st st' st'' Hs _ IH]; intros H; [exact H|].
  apply (reach_step _ st'); [exact Hs|apply IH, H].
Qed.

(** ** The call reads only its argument *)

Lemma slpf_init_reads_points (st : Store) :
  slpf_init st = slpf_init (fresh_store (s_points st)).
Proof. reflexivity. Qed.

Lemma slpf_loop_points (fuel : nat) (st : Store) :
  s_points (snd (slpf_loop fuel st)) = s_points st.
Proof.
  revert st; induction fuel as [|fuel IH]; intros st; simpl; [reflexivity|].
  destruct (loop_cond st); [|reflexivity].
  destruct (scan_body st) as [st'|] eqn:Hb; [|reflexivity].
  rewrite IH; apply (scan_body_spec _ _ Hb).
Qed.

Lemma slpf_init_points (st st0 : Store) :
  slpf_init st = Some st0 -> s_points st0 = s_points st.
Proof.
  unfold slpf_init; destruct (last_elem _); [|discriminate].
  intros H; inversion H; reflexivity.
Qed.

Lemma slpfPoints_call_points (fuel : nat) (st : Store) :
  s_points (snd (slpfPoints_call fuel st)) = s_points st.
Proof.
  unfold slpfPoints_call.
  destruct (Nat.ltb (length (s_points st)) 3); [reflexivity|].
  destruct (slpf_init st) as [st0|] eqn:Hi; [|reflexivity].
  rewrite slpf_loop_points; apply (slpf_init_points _ _ Hi).
Qed.

Lemma slpfPoints_call_result (fuel : nat) (st1 st2 : Store) :
  s_points st1 = s_points st2 ->
  fst (slpfPoints_call fuel st1) = fst (slpfPoints_call fuel st2).
Proof.
  intros Hp; unfold slpfPoints_call.
  rewrite (slpf_init_reads_points st1), (slpf_init_reads_points st2), Hp.
  destruct (Nat.ltb (length (s_points st2)) 3); [reflexivity|].
  destruct (slpf_init (fresh_store (s_points st2))); reflexivity.
Qed.

(** C7: every edge reference built by [pointsToEdges] is, at every state the
    loop reaches, in exactly one of the Edge Table, the Active Edge Table or
    neither (discarded): [ET ++ AET] has no duplicate and only references
    to built edges.  Between an earlier state [st] and a later one [st'],
    [ET] only loses elements from its end (no edge goes back to it) and
    [ET ++ AET] only shrinks (no discarded edge comes back). *)
Theorem edge_tables_partition (points : list XYPoint) (st0 st st' : Store)
  (Hinit : slpf_init (fresh_store points) = Some st0)
  (Hr : reach st0 st) (Hr' : reach st st') :
  NoDup (s_ET st' ++ s_AET st') /\ NoDup (s_AET st') /\
  incl (s_ET st' ++ s_AET st') (seq 0 (length (pointsToEdges points))) /\
  (exists moved, s_ET st = s_ET st' ++ moved) /\
  incl (s_ET st') (s_ET st) /\
  incl (s_ET st' ++ s_AET st') (s_ET st ++ s_AET st).
Proof.
  destruct (slpf_init_tables _ _ Hinit) as (_ & _ & Haet0 & Hperm0).
  destruct (reach_tables _ _ (reach_trans _ _ _ Hr Hr')) as (_ & _ & [r0 Hp0]).
  destruct (reach_tables _ _ Hr') as (_ & [moved Hm] & [r1 Hp1]).
  rewrite Haet0, app_nil_r, Hperm0, app_assoc in Hp0.
  assert (Hnd : NoDup (s_ET st' ++ s_AET st')).
  { apply (NoDup_app_remove_r _ r0).
    apply (Permutation_NoDup Hp0), seq_NoDup. }
  split; [exact Hnd|]; split; [apply (NoDup_app_remove_l _ _ Hnd)|]; split.
  - intros a Ha; apply (Permutation_in _ (Permutation_sym Hp0)), in_or_app; left; exact Ha.
  - split; [exists moved; exact Hm|]; split.
    + intros a Ha; rewrite Hm; apply in_or_app; left; exact Ha.
    + intros a Ha; apply (Permutation_in _ (Permutation_sym Hp1)).
      rewrite app_assoc; apply in_or_app; left; exact Ha.
Qed.

Lemma edge_tables_partition_witness :
  slpf_init (fresh_store triangle8) = Some triangle8_st0 /\
  scan_body triangle8_st0 = Some triangle8_st1 /\
  NoDup (s_ET triangle8_st1 ++ s_AET triangle8_st1).
Proof.
  assert (H0 : slpf_init (fresh_store triangle8) = Some triangle8_st0)
    by (vm_compute; reflexivity).
  assert (H1 : scan_body triangle8_st0 = Some triangle8_st1) by (vm_compute; reflexivity).
  assert (Hc : loop_cond triangle8_st0 = true) by (vm_compute; reflexivity).
  split; [exact H0|]; split; [exact H1|].
  apply (edge_tables_partition triangle8 _ _ _ H0 (reach_refl _)).
  apply (reach_step _ _ _ (conj Hc H1) (reach_refl _)).
Defined.

(** C9: the result of a call depends on the input array alone (not on
    anything left in the store by an earlier call), the call does not
    modify the input array, and so a second call on the same input returns
    the same result as the first. *)
Theorem slpfPoints_no_hidden_state (fuel : nat) (st1 st2 : Store)
  (Hp : s_points st1 = s_points st2) :
  fst (slpfPoints_call fuel st1) = fst (slpfPoints_call fuel st2) /\
  s_points (snd (slpfPoints_call fuel st1)) = s_points st1 /\
  fst (slpfPoints_call fuel (snd (slpfPoints_call fuel st1))) =
  fst (slpfPoints_call fuel st1).
Proof.
  split; [apply slpfPoints_call_result, Hp|].
  split; [apply slpfPoints_call_points|].
  apply slpfPoints_call_result, slpfPoints_call_points.
Qed.

Lemma slpfPoints_no_hidden_state_witness :
  s_points (fresh_store triangle8) =
  s_points {| s_points := triangle8; s_edges := [dummy_edge]; s_ET := [0%nat; 0%nat];
              s_AET := [0%nat]; s_yScan := 7; s_gathered := [[pt 1 1]] |} /\
  fst (slpfPoints_call 10 (fresh_store triangle8)) =
  fst (slpfPoints_call 10 {| s_points := triangle8; s_edges := [dummy_edge];
                             s_ET := [0%nat; 0%nat]; s_AET := [0%nat]; s_yScan := 7;
                             s_gathered := [[pt 1 1]] |}).
Proof.
  split; [reflexivity|].
  apply (slpfPoints_no_hidden_state 10 (fresh_store triangle8)); reflexivity.
Defined.

(** ** Integer scanlines *)

Lemma is_int_inject (q : Q) : is_int q -> q = inject_Z (Qnum q).
Proof. destruct q as [n d]; unfold is_int; simpl; intros ->; reflexivity. Qed.

Lemma is_int_succ (q : Q) : is_int q -> is_int (q + 1) /\ Qnum (q + 1) = (Qnum q + 1)%Z.
Proof.
  destruct q as [n d]; unfold is_int; simpl; intros ->; split; [reflexivity|lia].
Qed.

Lemma Qeq_bool_int (a b : Q) :
  is_int a -> is_int b -> Qeq_bool a b = Z.eqb (Qnum a) (Qnum b).
Proof.
  unfold is_int, Qeq_bool; destruct a as [n d], b as [m e]; simpl; intros -> ->.
  rewrite !Z.mul_1_r; reflexivity.
Qed.

Lemma Qle_bool_int (a b : Q) :
  is_int a -> is_int b -> Qle_bool a b = Z.leb (Qnum a) (Qnum b).
Proof.
  unfold is_int, Qle_bool; destruct a as [n d], b as [m e]; simpl; intros -> ->.
  rewrite !Z.mul_1_r; reflexivity.
Qed.

(** ** A pass that does nothing *)

(** With one edge left in [ET], none in [AET], and a scanline that is not
    the edge's minimum [y], a pass changes nothing but [yScan]. *)
Lemma scan_body_idle (st : Store) (c : nat) :
  s_ET st = [c] -> s_AET st = [] ->
  Qeq_bool (s_yScan st) (getYMin (edge_at (s_edges st) c)) = false ->
  scan_body st = Some {| s_points := s_points st; s_edges := s_edges st; s_ET := [c];
                         s_AET := []; s_yScan := s_yScan st + 1;
                         s_gathered := s_gathered st ++ [[]] |}.
Proof.
  intros HET HAET Hy.
  unfold scan_body, manage_AET, moveEdges; rewrite HET, HAET.
  cbn [rev app move_loop]; rewrite Hy; reflexivity.
Qed.

Lemma half_step_stuck (fuel : nat) (st : Store) :
  s_edges st = pointsToEdges half_step_triangle -> s_ET st = [2%nat] -> s_AET st = [] ->
  is_int (s_yScan st) ->
  fst (slpf_loop fuel st) = OutOfFuel.
Proof.
  revert st; induction fuel as [|fuel IH]; intros st He HET HAET Hint; [reflexivity|].
  simpl; unfold loop_cond; rewrite HET; simpl.
  assert (Hy : Qeq_bool (s_yScan st) (getYMin (edge_at (s_edges st) 2)) = false).
  { rewrite He; change (getYMin (edge_at (pointsToEdges half_step_triangle) 2)) with (1 # 2).
    unfold Qeq_bool; destruct (s_yScan st) as [n d]; unfold is_int in Hint; simpl in *; subst.
    apply Z.eqb_neq; lia. }
  rewrite (scan_body_idle st 2 HET HAET Hy).
  apply IH; simpl; auto.
  apply (is_int_succ _ Hint).
Qed.

(** C2 (counterexample): on the triangle [(0,0),(1,1),(2,1/2)] the edge
    with minimum [y = 1/2] is never activated, since [yScan] runs through
    the integers from 0; the loop is still running after 5000 passes and
    never ends: there is no cap. *)
Lemma slpfPoints_half_step_runs_forever :
  slpfPoints 5000 half_step_triangle = OutOfFuel /\
  (forall fuel, slpfPoints fuel half_step_triangle = OutOfFuel).
Proof.
  assert (Hall : forall fuel, slpfPoints fuel half_step_triangle = OutOfFuel).
  { intros [|[|fuel]]; [reflexivity|reflexivity|].
    change (slpfPoints (S (S fuel)) half_step_triangle) with
      (fst (slpf_loop fuel half_step_st2)).
    apply half_step_stuck; vm_compute; reflexivity. }
  split; apply Hall.
Qed.

Lemma Qle_int (a b : Q) : is_int a -> is_int b -> a <= b -> (Qnum a <= Qnum b)%Z.
Proof.
  intros Ha Hb H; apply Qle_bool_iff in H; rewrite (Qle_bool_int a b Ha Hb) in H.
  apply Z.leb_le, H.
Qed.

Lemma good_edge_bounds (lo hi : Z) (e : Edge) :
  good_edge lo hi e ->
  is_int (getYMin e) /\ is_int (getYMax e) /\
  (lo <= Qnum (getYMin e) <= hi)%Z /\ (lo <= Qnum (getYMax e) <= hi)%Z.
Proof.
  destruct e as [p1 p2]; intros (H1 & H2 & H3 & H4); unfold getYMin, getYMax.
  destruct (Qle_bool (y p1) (y p2)), (Qgt_bool (y p1) (y p2)); auto.
Qed.

Lemma StronglySorted_app_l {A : Type} (R : A -> A -> Prop) (l1 l2 : list A) :
  StronglySorted R (l1 ++ l2) -> StronglySorted R l1.
Proof.
  induction l1 as [|a l1 IH]; intros H; [constructor|].
  inversion H as [|a' l' Hs Hall]; subst; constructor; [apply IH, Hs|].
  apply Forall_forall; intros b Hb; rewrite Forall_forall in Hall; apply Hall, in_or_app; auto.
Qed.

Lemma StronglySorted_last {A : Type} (R : A -> A -> Prop) (l : list A) (e : A) :
  StronglySorted R (l ++ [e]) -> forall r, In r l -> R r e.
Proof.
  induction l as [|a l IH]; intros H r Hr; [destruct Hr|].
  inversion H as [|a' l' Hs Hall]; subst; destruct Hr as [<-|Hr].
  - rewrite Forall_forall in Hall; apply Hall, in_or_app; right; left; reflexivity.
  - apply IH; auto.
Qed.

Lemma last_elem_split {A : Type} (l : list A) (e : A) :
  last_elem l = Some e -> l = removelast l ++ [e].
Proof.
  unfold last_elem; intros H.
  destruct (rev l) as [|a r] eqn:Hr; [discriminate|]; inversion H; subst.
  rewrite <- (rev_involutive l), Hr; simpl.
  rewrite removelast_last; reflexivity.
Qed.

Lemma fold_min_bounds (l : list Z) (a : Z) :
  (fold_left Z.min l a <= a)%Z /\ forall b, In b l -> (fold_left Z.min l a <= b)%Z.
Proof.
  revert a; induction l as [|c l IH]; intros a; simpl; [split; [lia|tauto]|].
  destruct (IH (Z.min a c)) as [H1 H2]; split; [lia|].
  intros b [<-|Hb]; [lia|apply H2, Hb].
Qed.

Lemma fold_max_bounds (l : list Z) (a : Z) :
  (a <= fold_left Z.max l a)%Z /\ forall b, In b l -> (b <= fold_left Z.max l a)%Z.
Proof.
  revert a; induction l as [|c l IH]; intros a; simpl; [split; [lia|tauto]|].
  destruct (IH (Z.max a c)) as [H1 H2]; split; [lia|].
  intros b [<-|Hb]; [lia|apply H2, Hb].
Qed.

Lemma points_y_bounds (points : list XYPoint) (q : XYPoint) :
  In q points -> (minY points <= Qnum (y q) <= maxY points)%Z.
Proof.
  intros Hq; unfold minY, maxY.
  assert (Hin : In (Qnum (y q)) (ys_of points)) by (unfold ys_of; apply (in_map (fun p => Qnum (y p))), Hq).
  split; [apply fold_min_bounds, Hin|apply fold_max_bounds, Hin].
Qed.

Lemma pointsToEdges_loop_in (a : XYPoint) (l : list XYPoint) (e : Edge) :
  In e (pointsToEdges_loop a l) -> In (point1 e) (a :: l) /\ In (point2 e) (a :: l).
Proof.
  revert a; induction l as [|b l IH]; intros a H; simpl in H; [destruct H|].
  destruct (negb (Qeq_bool (x a) (x b))); [destruct H as [<-|H]|]; simpl.
  - auto.
  - destruct (IH b H); simpl in *; tauto.
  - destruct (IH b H); simpl in *; tauto.
Qed.

Lemma pointsToEdges_in (points : list XYPoint) (e : Edge) :
  In e (pointsToEdges points) -> In (point1 e) points /\ In (point2 e) points.
Proof.
  unfold pointsToEdges; destruct (rev points) as [|a r] eqn:Hr; [intros []|].
  intros H; destruct (pointsToEdges_loop_in _ _ _ H) as [H1 H2].
  assert (Ha : In a points) by (apply in_rev; rewrite Hr; left; reflexivity).
  destruct H1 as [<-|H1], H2 as [<-|H2]; auto.
Qed.

(** ** The loop at integer scanlines *)

Lemma scan_inv_step (lo hi : Z) (st st' : Store) (z : Z) :
  scan_inv lo hi st z -> scan_body st = Some st' -> scan_inv lo hi st' (z + 1).
Proof.
  intros (Hint & Hz & Hgood & HET & HAET & Hsort) Hb.
  destruct (scan_body_spec _ _ Hb)
    as (_ & He & Hy & moved & removed & Hsplit & Hmoved & Hlast & Hperm & Hkeep).
  unfold scan_inv; rewrite He, Hy.
  set (deref := edge_at (s_edges st)) in *.
  destruct (is_int_succ _ Hint) as [Hint' Hz']; rewrite Hz in Hz'.
  assert (Hsub : forall r, In r (s_ET st' ++ s_AET st') -> In r (s_ET st ++ s_AET st)).
  { intros r Hr; apply in_app_or in Hr as [Hr|Hr]; rewrite Hsplit.
    - apply in_or_app; left; apply in_or_app; left; exact Hr.
    - assert (Hr' : In r (s_AET st ++ moved))
        by (apply (Permutation_in _ (Permutation_sym Hperm)), in_or_app; left; exact Hr).
      apply in_app_or in Hr' as [Hr'|Hr']; apply in_or_app; [right; exact Hr'|].
      left; apply in_or_app; right; apply in_rev; rewrite rev_involutive; exact Hr'. }
  assert (Hgood' : forall r, In r (s_ET st' ++ s_AET st') -> good_edge lo hi (deref r))
    by (intros r Hr; apply Hgood, Hsub, Hr).
  rewrite Hsplit in Hsort; pose proof (StronglySorted_app_l _ _ _ Hsort) as Hsort'.
  split; [exact Hint'|]; split; [exact Hz'|]; split; [exact Hgood'|]; split; [|split; [|exact Hsort']].
  - intros r Hr.
    destruct (last_elem (s_ET st')) as [l|] eqn:Hl.
    2: { unfold last_elem in Hl; destruct (rev (s_ET st')) eqn:Hrev; [|discriminate].
         apply (f_equal (@rev nat)) in Hrev; rewrite rev_involutive in Hrev.
         rewrite Hrev in Hr; destruct Hr. }
    pose proof (Hlast l eq_refl) as Hne.
    pose proof (last_elem_split _ _ Hl) as Hls.
    assert (Hlin : In l (s_ET st')) by (rewrite Hls; apply in_or_app; right; left; reflexivity).
    assert (Hgl : good_edge lo hi (deref l)) by (apply Hgood'; apply in_or_app; left; exact Hlin).
    destruct (good_edge_bounds _ _ _ Hgl) as (Hil & _ & _ & _).
    rewrite (Qeq_bool_int _ _ Hint Hil), Hz in Hne; apply Z.eqb_neq in Hne.
    assert (Hzl : (z <= Qnum (getYMin (deref l)))%Z)
      by (apply HET; rewrite Hsplit; apply in_or_app; left; exact Hlin).
    assert (Hlr : (Qnum (getYMin (deref l)) <= Qnum (getYMin (deref r)))%Z).
    { rewrite Hls in Hr; apply in_app_or in Hr as [Hr|[<-|[]]]; [|lia].
      assert (Hgr : good_edge lo hi (deref r)).
      { apply Hgood'; apply in_or_app; left; rewrite Hls; apply in_or_app; left; exact Hr. }
      destruct (good_edge_bounds _ _ _ Hgr) as (Hir & _ & _ & _).
      apply Qle_int; [exact Hil|exact Hir|].
      rewrite Hls in Hsort'; apply (StronglySorted_last _ _ _ Hsort' r Hr). }
    lia.
  - intros r Hr.
    rewrite Forall_forall in Hkeep; pose proof (Hkeep r Hr) as Hk.
    assert (Hgr : good_edge lo hi (deref r)) by (apply Hgood'; apply in_or_app; right; exact Hr).
    destruct (good_edge_bounds _ _ _ Hgr) as (_ & Hir & _ & _).
    rewrite (Qle_bool_int _ _ Hir Hint), Hz in Hk; apply Z.leb_gt in Hk; lia.
Qed.

Lemma scan_inv_bound (lo hi : Z) (st : Store) (z : Z) :
  scan_inv lo hi st z -> loop_cond st = true -> (z <= hi)%Z.
Proof.
  intros (_ & _ & Hgood & HET & HAET & _) Hc; unfold loop_cond in Hc.
  destruct (s_ET st) as [|r ET] eqn:HE.
  - destruct (s_AET st) as [|r AET] eqn:HA; [discriminate|].
    assert (Hg : good_edge lo hi (edge_at (s_edges st) r))
      by (apply Hgood; simpl; left; reflexivity).
    destruct (good_edge_bounds _ _ _ Hg) as (_ & _ & _ & Hb).
    specialize (HAET r (or_introl eq_refl)); lia.
  - assert (Hg : good_edge lo hi (edge_at (s_edges st) r))
      by (apply Hgood; simpl; left; reflexivity).
    destruct (good_edge_bounds _ _ _ Hg) as (_ & _ & Hb & _).
    specialize (HET r (or_introl eq_refl)); lia.
Qed.

Lemma slpf_loop_exits (lo hi : Z) (fuel : nat) (st : Store) (z : Z) :
  scan_inv lo hi st z -> (Z.to_nat (hi - z + 1) < fuel)%nat ->
  fst (slpf_loop fuel st) <> OutOfFuel.
Proof.
  revert st z; induction fuel as [|fuel IH]; intros st z Hinv Hf; [lia|].
  simpl; destruct (loop_cond st) eqn:Hc; [|discriminate].
  pose proof (scan_inv_bound _ _ _ _ Hinv Hc) as Hzb.
  destruct (scan_body st) as [st'|] eqn:Hb; [|discriminate].
  assert (Hn : Z.to_nat (hi - z + 1) = S (Z.to_nat (hi - (z + 1) + 1))).
  { rewrite <- Z2Nat.inj_succ by lia; f_equal; lia. }
  apply (IH st' (z + 1)%Z); [apply (scan_inv_step _ _ _ _ _ Hinv Hb)|lia].
Qed.

Lemma built_edges_good (points : list XYPoint) (r : nat) :
  Forall (fun q => is_int (y q)) points ->
  In r (seq 0 (length (pointsToEdges points))) ->
  good_edge (minY points) (maxY points) (edge_at (pointsToEdges points) r).
Proof.
  intros Hint Hr; apply in_seq in Hr.
  assert (Hin : In (edge_at (pointsToEdges points) r) (pointsToEdges points))
    by (apply nth_In; lia).
  destruct (pointsToEdges_in _ _ Hin) as [H1 H2].
  rewrite Forall_forall in Hint.
  repeat split; try apply Hint; auto; apply points_y_bounds; auto.
Qed.

Lemma slpf_init_inv (points : list XYPoint) (st0 : Store)
  (Hint : Forall (fun q => is_int (y q)) points) :
  slpf_init (fresh_store points) = Some st0 ->
  exists z0, scan_inv (minY points) (maxY points) st0 z0 /\ (minY points <= z0)%Z.
Proof.
  intros Hi; pose proof (slpf_init_tables _ _ Hi) as (_ & He & Haet & Hperm).
  revert Hi; unfold slpf_init; simpl.
  set (edges := pointsToEdges points) in *.
  set (ET0 := sort_by (et_cmp (edge_at edges)) (seq 0 (length edges))) in *.
  destruct (last_elem ET0) as [r|] eqn:Hl; [|discriminate].
  intros H; inversion H; subst; clear H; simpl in *.
  assert (Hgood : forall r', In r' ET0 -> good_edge (minY points) (maxY points) (edge_at edges r')).
  { intros r' Hr'; apply built_edges_good; [exact Hint|].
    apply (Permutation_in _ Hperm), Hr'. }
  assert (Hrin : In r ET0)
    by (rewrite (last_elem_split _ _ Hl); apply in_or_app; right; left; reflexivity).
  destruct (good_edge_bounds _ _ _ (Hgood r Hrin)) as (Hir & _ & Hbr & _).
  assert (Hsort : StronglySorted (key_desc (fun r' => getYMin (edge_at edges r'))) ET0)
    by (unfold ET0; rewrite et_cmp_desc; apply sort_by_desc_sorted).
  exists (Qnum (getYMin (edge_at edges r))).
  split; [|lia].
  unfold scan_inv; cbv zeta; cbn [s_edges s_ET s_AET s_yScan].
  split; [exact Hir|]; split; [reflexivity|]; split.
  - intros r' Hr'; rewrite app_nil_r in Hr'; apply Hgood, Hr'.
  - split; [|split; [intros r' []|exact Hsort]].
    intros r' Hr'.
    rewrite (last_elem_split _ _ Hl) in Hr', Hsort.
    apply in_app_or in Hr' as [Hr'|[<-|[]]]; [|lia].
    assert (Hr'' : In r' ET0)
      by (rewrite (last_elem_split _ _ Hl); apply in_or_app; left; exact Hr').
    destruct (good_edge_bounds _ _ _ (Hgood r' Hr'')) as (Hir' & _ & _ & _).
    apply Qle_int; [exact Hir|exact Hir'|].
    apply (StronglySorted_last _ _ _ Hsort r' Hr').
Qed.

(** C2 (amended): the loop has no iteration cap; it stops only when both
    tables are empty (or when a pass throws).  When every [y] of the input
    is an integer and every coordinate lies in [-2^52, 2^52] (so that
    [yScan++] and the [x++] span loops step exactly and cannot stall), it
    stops within [maxY - minY + 1] passes: with more fuel than that (one
    more unit for the final test of the condition) the call never runs out
    of fuel. *)
Theorem slpfPoints_integer_y_terminates (points : list XYPoint) (fuel : nat)
  (Hint : Forall (fun q => is_int (y q)) points)
  (Hsafe : Forall safe_point points)
  (Hfuel : (Z.to_nat (maxY points - minY points + 1) < fuel)%nat) :
  slpfPoints fuel points <> OutOfFuel.
Proof.
  unfold slpfPoints, slpfPoints_call; simpl.
  destruct (Nat.ltb (length points) 3); [discriminate|].
  destruct (slpf_init (fresh_store points)) as [st0|] eqn:Hi; [|discriminate].
  destruct (slpf_init_inv _ _ Hint Hi) as (z0 & Hinv & Hz0).
  apply (slpf_loop_exits _ _ _ _ _ Hinv).
  lia.
Qed.

Lemma slpfPoints_integer_y_terminates_witness :
  Forall (fun q => is_int (y q)) triangle8 /\
  Forall safe_point triangle8 /\
  (Z.to_nat (maxY triangle8 - minY triangle8 + 1) < 6)%nat /\
  slpfPoints 6 triangle8 <> OutOfFuel.
Proof.
  assert (Hint : Forall (fun q => is_int (y q)) triangle8) by (repeat constructor).
  assert (Hsafe : Forall safe_point triangle8)
    by (repeat apply Forall_cons; try apply Forall_nil;
        repeat split; apply Qle_bool_iff; vm_compute; reflexivity).
  assert (Hf : (Z.to_nat (maxY triangle8 - minY triangle8 + 1) < 6)%nat)
    by (vm_compute; lia).
  split; [exact Hint|]; split; [exact Hsafe|]; split; [exact Hf|].
  apply (slpfPoints_integer_y_terminates triangle8 6 Hint Hsafe Hf).
Defined.

(** ** Further properties of the fill *)

Lemma flatten_acc {A : Type} (l : list (list A)) (acc : list A) :
  fold_left (fun acc v => acc ++ v) l acc = acc ++ flatten l.
Proof.
  unfold flatten; revert acc; induction l as [|a l IH]; intros acc; simpl.
  - rewrite app_nil_r; reflexivity.
  - rewrite IH, (IH a), app_assoc; reflexivity.
Qed.

Lemma flatten_cons {A : Type} (a : list A) (l : list (list A)) :
  flatten (a :: l) = a ++ flatten l.
Proof. unfold flatten at 1; simpl; apply flatten_acc. Qed.

Lemma flatten_snoc {A : Type} (l : list (list A)) (a : list A) :
  flatten (l ++ [a]) = flatten l ++ a.
Proof. unfold flatten at 1; rewrite fold_left_app; reflexivity. Qed.

Lemma paint_app setPixelAt l1 l2 data :
  paint setPixelAt (l1 ++ l2) data = paint setPixelAt l2 (paint setPixelAt l1 data).
Proof. unfold paint; apply fold_left_app. Qed.

Lemma fill_loop_paint setPixelAt fuel xv xend yv data :
  fill_loop setPixelAt fuel xv xend yv data = paint setPixelAt (collect_loop fuel xv xend yv) data.
Proof.
  revert xv data; induction fuel as [|fuel IH]; intros xv data; simpl; [reflexivity|].
  destruct (Qlt_bool xv xend); simpl; [apply IH|reflexivity].
Qed.

Lemma drawSpans_gather setPixelAt spans yv data :
  drawSpans spans yv setPixelAt data =
  match gatherSpans_loop spans yv with
  | None => None
  | Some g => Some (paint setPixelAt (flatten g) data)
  end.
Proof.
  remember (length spans) as n eqn:Hn.
  revert spans data Hn; induction n as [n IH] using lt_wf_ind; intros spans data Hn.
  destruct spans as [|p1 [|p2 rest]]; [reflexivity|reflexivity|].
  simpl; rewrite fill_loop_paint.
  rewrite (IH (length rest)) by (simpl in Hn; lia || reflexivity).
  destruct (gatherSpans_loop rest yv); [|reflexivity].
  rewrite flatten_cons, paint_app; reflexivity.
Qed.


Lemma manage_AET_tables_of (st : Store) :
  manage_AET (tables_of st) = (tables_of (fst (manage_AET st)), snd (manage_AET st)).
Proof.
  unfold manage_AET; simpl.
  destruct (moveEdges _ _ _ _); reflexivity.
Qed.

Lemma fill_scan_corr (w fuel : nat) (st : Store) (img : list Z) :
  match fst (slpf_loop fuel st), fill_scan_loop w fuel (tables_of st) img with
  | Returned r, Returned img' =>
      exists new, r = flatten (s_gathered st) ++ new /\
                  img' = paint (fun d => bindSetPixelWhite d w) new img
  | Thrown, Thrown => True
  | OutOfFuel, OutOfFuel => True
  | _, _ => False
  end.
Proof.
  revert st img; induction fuel as [|fuel IH]; intros st img; simpl; [exact I|].
  change (loop_cond (tables_of st)) with (loop_cond st).
  destruct (loop_cond st).
  2: { exists []; rewrite app_nil_r; split; reflexivity. }
  unfold scan_body, fill_body; rewrite manage_AET_tables_of.
  destruct (manage_AET st) as [st1 spans] eqn:Hm; simpl.
  destruct (manage_AET_spec _ _ _ Hm) as (_ & _ & _ & Hg & _).
  rewrite drawSpans_gather; unfold gatherSpans.
  destruct (gatherSpans_loop spans (s_yScan st1)) as [g|]; [|exact I].
  specialize (IH {| s_points := s_points st1; s_edges := s_edges st1; s_ET := s_ET st1;
                    s_AET := s_AET st1; s_yScan := s_yScan st1 + 1;
                    s_gathered := s_gathered st1 ++ [flatten g] |}
                 (paint (fun d => bindSetPixelWhite d w) (flatten g) img)).
  simpl in IH; unfold tables_of in IH |- *; simpl.
  destruct (fst (slpf_loop fuel _)), (fill_scan_loop w fuel _ _); try exact IH.
  destruct IH as (new & Hr & Hi).
  exists (flatten g ++ new); split.
  - rewrite Hr, flatten_snoc, Hg, app_assoc; reflexivity.
  - rewrite Hi, paint_app; reflexivity.
Qed.

Lemma slpfFilledArray_body_corr (fuel : nat) (points : list XYPoint) (bmp : ImageBitmap) :
  (3 <= length points)%nat ->
  slpfFilledArray_body fuel points bmp =
  match slpfPoints fuel points with
  | Returned pts =>
      Returned (Some (paint (fun d => bindSetPixelWhite d (width bmp)) pts
                        (repeat 0%Z (width bmp * height bmp * 4))))
  | Thrown => Thrown
  | OutOfFuel => OutOfFuel
  end.
Proof.
  intros H3.
  assert (Hb : Nat.ltb (length points) 3 = false) by (apply Nat.ltb_ge; exact H3).
  unfold slpfFilledArray_body, slpfPoints, slpfPoints_call; simpl; rewrite Hb.
  destruct (slpf_init (fresh_store points)) as [st0|] eqn:Hi; [|reflexivity].
  assert (Ht : tables_of st0 = st0 /\ s_gathered st0 = []).
  { revert Hi; unfold slpf_init; destruct (last_elem _); intros H; inversion H; split; reflexivity. }
  destruct Ht as [Ht Hg].
  pose proof (fill_scan_corr (width bmp) fuel st0 (repeat 0%Z (width bmp * height bmp * 4))) as C.
  rewrite Ht in C.
  destruct (fst (slpf_loop fuel st0)), (fill_scan_loop _ fuel st0 _); try contradiction; try reflexivity.
  destruct C as (new & Hr & Hi'); rewrite Hg in Hr; simpl in Hr; subst; reflexivity.
Qed.

Lemma nth_replace_same {A : Type} (j : nat) (v : A) (l : list A) (d : A) :
  (j < length l)%nat -> nth j (replace_nth j v l) d = v.
Proof.
  revert j; induction l as [|a l IH]; intros [|j] H; simpl in *; try lia; auto;
    apply IH; lia.
Qed.

Lemma nth_replace_other {A : Type} (i j : nat) (v : A) (l : list A) (d : A) :
  i <> j -> nth i (replace_nth j v l) d = nth i l d.
Proof.
  revert i j; induction l as [|a l IH]; intros [|i] [|j] H; simpl; auto; try lia;
    apply IH; lia.
Qed.

Lemma Qred_int (n : Z) : Qred (inject_Z n) = inject_Z n.
Proof. apply Qcanon.Qred_identity; exact (Z.gcd_1_r n). Qed.

Lemma set_byte_length (data : list Z) (index : Q) :
  length (set_byte data index) = length data.
Proof. unfold set_byte; destruct (_ && _ && _); [apply replace_nth_length|reflexivity]. Qed.

Lemma set_byte_compat (data : list Z) (i j : Q) : i == j -> set_byte data i = set_byte data j.
Proof. intros H; unfold set_byte; rewrite (Qred_complete _ _ H); reflexivity. Qed.

Lemma set_byte_at (data : list Z) (index : Q) (n : Z) :
  index == inject_Z n -> (0 <= n < Z.of_nat (length data))%Z ->
  nth (Z.to_nat n) (set_byte data index) 0%Z = 255%Z.
Proof.
  intros H Hn; rewrite (set_byte_compat _ _ _ H); unfold set_byte; rewrite Qred_int; simpl.
  replace ((0 <=? n)%Z && (n <? Z.of_nat (length data))%Z) with true
    by (symmetry; apply andb_true_iff; split; [apply Z.leb_le|apply Z.ltb_lt]; lia).
  apply nth_replace_same; lia.
Qed.

Lemma set_byte_keep (data : list Z) (index : Q) (i : nat) :
  nth i data 0%Z = 255%Z -> nth i (set_byte data index) 0%Z = 255%Z.
Proof.
  intros H; unfold set_byte; destruct (_ && _ && _); [|exact H].
  destruct (Nat.eq_dec i (Z.to_nat (Qnum (Qred index)))) as [->|Hne].
  - destruct (Nat.lt_ge_cases (Z.to_nat (Qnum (Qred index))) (length data)) as [Hl|Hl].
    + apply nth_replace_same; exact Hl.
    + rewrite nth_overflow in H; [discriminate|exact Hl].
  - rewrite nth_replace_other by exact Hne; exact H.
Qed.

Lemma set_byte_only (data : list Z) (index : Q) (i : nat) :
  nth i (set_byte data index) 0%Z = 255%Z ->
  nth i data 0%Z = 255%Z \/ index == inject_Z (Z.of_nat i).
Proof.
  unfold set_byte; destruct (Qden (Qred index) =? 1)%positive eqn:Hd; simpl;
    [|intros H; left; exact H].
  destruct ((0 <=? Qnum (Qred index))%Z && _)%bool eqn:Hc; simpl; [|intros H; left; exact H].
  apply Pos.eqb_eq in Hd; apply andb_true_iff in Hc as [H0 _]; apply Z.leb_le in H0.
  destruct (Nat.eq_dec i (Z.to_nat (Qnum (Qred index)))) as [->|Hne].
  - intros _; right.
    rewrite Z2Nat.id by exact H0.
    apply Qeq_trans with (Qred index); [apply Qeq_sym, Qred_correct|].
    destruct (Qred index) as [n d]; simpl in *; subst; reflexivity.
  - rewrite nth_replace_other by exact Hne; intros H; left; exact H.
Qed.

Lemma set_byte_bytes (data : list Z) (index : Q) :
  Forall (fun b => b = 0%Z \/ b = 255%Z) data ->
  Forall (fun b => b = 0%Z \/ b = 255%Z) (set_byte data index).
Proof.
  unfold set_byte; destruct (_ && _ && _); [|auto].
  generalize (Z.to_nat (Qnum (Qred index))); induction data as [|a l IH]; intros [|j] H;
    simpl; auto; inversion H; subst; constructor; auto.
Qed.

Lemma bind_length (data : list Z) (w : nat) (xv yv : Q) :
  length (bindSetPixelWhite data w xv yv) = length data.
Proof. unfold bindSetPixelWhite; rewrite !set_byte_length; reflexivity. Qed.

Lemma bind_bytes (data : list Z) (w : nat) (xv yv : Q) :
  Forall (fun b => b = 0%Z \/ b = 255%Z) data ->
  Forall (fun b => b = 0%Z \/ b = 255%Z) (bindSetPixelWhite data w xv yv).
Proof. intros H; unfold bindSetPixelWhite; repeat apply set_byte_bytes; exact H. Qed.

Lemma bind_keep (data : list Z) (w : nat) (xv yv : Q) (i : nat) :
  nth i data 0%Z = 255%Z -> nth i (bindSetPixelWhite data w xv yv) 0%Z = 255%Z.
Proof. intros H; unfold bindSetPixelWhite; repeat apply set_byte_keep; exact H. Qed.

Lemma bind_white (data : list Z) (w : nat) (xv yv : Q) (k n : Z) :
  (0 <= k <= 3)%Z ->
  (inject_Z (Z.of_nat w) * yv + xv) * 4 + inject_Z k == inject_Z n ->
  (0 <= n < Z.of_nat (length data))%Z ->
  nth (Z.to_nat n) (bindSetPixelWhite data w xv yv) 0%Z = 255%Z.
Proof.
  intros Hk Hi Hn; unfold bindSetPixelWhite.
  set (base := (inject_Z (Z.of_nat w) * yv + xv) * 4) in *.
  assert (Hc : (k = 0 \/ k = 1 \/ k = 2 \/ k = 3)%Z) by lia.
  destruct Hc as [ -> | [ -> | [ -> | -> ]]].
  - do 3 apply set_byte_keep; apply set_byte_at; [|exact Hn].
    rewrite <- Hi; unfold inject_Z; ring.
  - do 2 apply set_byte_keep; apply set_byte_at; [exact Hi|rewrite set_byte_length; exact Hn].
  - apply set_byte_keep, set_byte_at; [exact Hi|rewrite !set_byte_length; exact Hn].
  - apply set_byte_at; [exact Hi|rewrite !set_byte_length; exact Hn].
Qed.

Lemma bind_only (data : list Z) (w : nat) (xv yv : Q) (i : nat) :
  nth i (bindSetPixelWhite data w xv yv) 0%Z = 255%Z ->
  nth i data 0%Z = 255%Z \/
  exists k, (0 <= k <= 3)%Z /\
            (inject_Z (Z.of_nat w) * yv + xv) * 4 + inject_Z k == inject_Z (Z.of_nat i).
Proof.
  unfold bindSetPixelWhite; set (base := (inject_Z (Z.of_nat w) * yv + xv) * 4).
  intros H.
  destruct (set_byte_only _ _ _ H) as [H3|H3]; [|right; exists 3%Z; split; [lia|exact H3]].
  destruct (set_byte_only _ _ _ H3) as [H2|H2]; [|right; exists 2%Z; split; [lia|exact H2]].
  destruct (set_byte_only _ _ _ H2) as [H1|H1]; [|right; exists 1%Z; split; [lia|exact H1]].
  destruct (set_byte_only _ _ _ H1) as [H0|H0]; [left; exact H0|].
  right; exists 0%Z; split; [lia|]; rewrite <- H0; unfold inject_Z; ring.
Qed.

Lemma paint_cons (setPixelAt : list Z -> Q -> Q -> list Z) (q : XYPoint) pts data :
  paint setPixelAt (q :: pts) data = paint setPixelAt pts (setPixelAt data (x q) (y q)).
Proof. reflexivity. Qed.

Section Paint.
Variable w : nat.

Lemma paint_length (pts : list XYPoint) (data : list Z) :
  length (paint (fun d => bindSetPixelWhite d w) pts data) = length data.
Proof.
  unfold paint; revert data; induction pts as [|p pts IH]; intros data; simpl; [reflexivity|].
  rewrite IH; apply bind_length.
Qed.

Lemma paint_bytes (pts : list XYPoint) (data : list Z) :
  Forall (fun b => b = 0%Z \/ b = 255%Z) data ->
  Forall (fun b => b = 0%Z \/ b = 255%Z) (paint (fun d => bindSetPixelWhite d w) pts data).
Proof.
  unfold paint; revert data; induction pts as [|p pts IH]; intros data H; simpl; [exact H|].
  apply IH, bind_bytes, H.
Qed.

Lemma paint_keep (pts : list XYPoint) (data : list Z) (i : nat) :
  nth i data 0%Z = 255%Z -> nth i (paint (fun d => bindSetPixelWhite d w) pts data) 0%Z = 255%Z.
Proof.
  unfold paint; revert data; induction pts as [|p pts IH]; intros data H; simpl; [exact H|].
  apply IH, bind_keep, H.
Qed.

Lemma paint_white (pts : list XYPoint) (data : list Z) (p : XYPoint) (k n : Z) :
  In p pts -> (0 <= k <= 3)%Z ->
  (inject_Z (Z.of_nat w) * y p + x p) * 4 + inject_Z k == inject_Z n ->
  (0 <= n < Z.of_nat (length data))%Z ->
  nth (Z.to_nat n) (paint (fun d => bindSetPixelWhite d w) pts data) 0%Z = 255%Z.
Proof.
  revert data; induction pts as [|q pts IH]; intros data Hp Hk Hi Hn; [destruct Hp|].
  rewrite paint_cons; destruct Hp as [<-|Hp].
  - apply paint_keep, bind_white with k; assumption.
  - apply IH; [exact Hp|exact Hk|exact Hi|rewrite bind_length; exact Hn].
Qed.

Lemma paint_only (pts : list XYPoint) (data : list Z) (i : nat) :
  nth i (paint (fun d => bindSetPixelWhite d w) pts data) 0%Z = 255%Z ->
  nth i data 0%Z = 255%Z \/
  exists p k, In p pts /\ (0 <= k <= 3)%Z /\
              (inject_Z (Z.of_nat w) * y p + x p) * 4 + inject_Z k == inject_Z (Z.of_nat i).
Proof.
  revert data; induction pts as [|q pts IH]; intros data H; [left; exact H|].
  rewrite paint_cons in H; destruct (IH _ H) as [H1|(p & k & Hp & Hk & Hi)].
  - destruct (bind_only _ _ _ _ _ H1) as [H0|(k & Hk & Hi)]; [left; exact H0|].
    right; exists q, k; split; [left; reflexivity|split; assumption].
  - right; exists p, k; split; [right; exact Hp|split; assumption].
Qed.
End Paint.

Lemma bind_compat (data : list Z) (w : nat) (xv yv xv' yv' : Q) :
  (inject_Z (Z.of_nat w) * yv + xv) * 4 == (inject_Z (Z.of_nat w) * yv' + xv') * 4 ->
  bindSetPixelWhite data w xv yv = bindSetPixelWhite data w xv' yv'.
Proof.
  unfold bindSetPixelWhite.
  set (b := (inject_Z (Z.of_nat w) * yv + xv) * 4).
  set (b' := (inject_Z (Z.of_nat w) * yv' + xv') * 4).
  intros H.
  rewrite (set_byte_compat data b b' H).
  rewrite (set_byte_compat _ (b + 1) (b' + 1)) by (rewrite H; reflexivity).
  rewrite (set_byte_compat _ (b + 2) (b' + 2)) by (rewrite H; reflexivity).
  rewrite (set_byte_compat _ (b + 3) (b' + 3)) by (rewrite H; reflexivity).
  reflexivity.
Qed.

(** X3: The pixel setter has no column bound: for integer x and y of magnitude at most 2^24 and a width of at most 2^24, setting (x + width, y) writes the same four bytes as setting (x, y + 1). *)
Theorem bindSetPixelWhite_wraps (data : list Z) (w : nat) (xv yv : Q)
  (Hx : is_int xv) (Hy : is_int yv) (Hw : (Z.of_nat w <= 2 ^ 24)%Z)
  (Hxb : (Z.abs (Qnum xv) <= 2 ^ 24)%Z) (Hyb : (Z.abs (Qnum yv) <= 2 ^ 24)%Z) :
  bindSetPixelWhite data w (xv + inject_Z (Z.of_nat w)) yv =
  bindSetPixelWhite data w xv (yv + 1).
Proof. apply bind_compat; ring. Qed.

Lemma bindSetPixelWhite_wraps_witness :
  is_int 1 /\ is_int 0 /\ (Z.of_nat 2 <= 2 ^ 24)%Z /\
  (Z.abs (Qnum 1) <= 2 ^ 24)%Z /\ (Z.abs (Qnum 0) <= 2 ^ 24)%Z /\
  bindSetPixelWhite (repeat 0%Z 16) 2 (1 + inject_Z (Z.of_nat 2)) 0 =
  bindSetPixelWhite (repeat 0%Z 16) 2 1 (0 + 1).
Proof.
  assert (Hx : is_int 1) by reflexivity.
  assert (Hy : is_int 0) by reflexivity.
  assert (Hw : (Z.of_nat 2 <= 2 ^ 24)%Z) by (simpl; lia).
  assert (Hxb : (Z.abs (Qnum 1) <= 2 ^ 24)%Z) by (simpl; lia).
  assert (Hyb : (Z.abs (Qnum 0) <= 2 ^ 24)%Z) by (simpl; lia).
  repeat (split; [assumption|]).
  apply (bindSetPixelWhite_wraps (repeat 0%Z 16) 2 1 0 Hx Hy Hw Hxb Hyb).
Defined.

(** X1: For at least three points, slpfFilledArray throws or fails to end exactly when slpfPoints does. When it ends, its buffer is a zero-filled width*height*4 array with setPixelAt applied to the points of slpfPoints, in the same order. *)
Theorem slpfFilledArray_paints_slpfPoints (fuel : nat) (points : list XYPoint)
  (bmp : ImageBitmap) (H3 : (3 <= length points)%nat) :
  slpfFilledArray_body fuel points bmp =
  match slpfPoints fuel points with
  | Returned pts =>
      Returned (Some (paint (fun d => bindSetPixelWhite d (width bmp)) pts
                        (repeat 0%Z (width bmp * height bmp * 4))))
  | Thrown => Thrown
  | OutOfFuel => OutOfFuel
  end.
Proof. apply slpfFilledArray_body_corr, H3. Qed.

Lemma slpfFilledArray_paints_slpfPoints_witness :
  (3 <= length triangle8)%nat /\
  slpfFilledArray_body 10 triangle8 (mkImageBitmap 9 5) =
  match slpfPoints 10 triangle8 with
  | Returned pts =>
      Returned (Some (paint (fun d => bindSetPixelWhite d 9) pts (repeat 0%Z (9 * 5 * 4))))
  | Thrown => Thrown
  | OutOfFuel => OutOfFuel
  end.
Proof.
  split; [simpl; lia|].
  apply (slpfFilledArray_paints_slpfPoints 10 triangle8 (mkImageBitmap 9 5)); simpl; lia.
Defined.

(** X2: When the fill returns a buffer img, slpfPoints returns some points pts. img has width*height*4 bytes. Byte i is 255 when i equals (width*p.y + p.x)*4 + k for some p in pts and k in 0..3; every other byte is 0. *)
Theorem slpfFilledArray_buffer_exact (fuel : nat) (points : list XYPoint)
  (bmp : ImageBitmap) (img : list Z)
  (Hret : slpfFilledArray_body fuel points bmp = Returned (Some img)) :
  exists pts,
    slpfPoints fuel points = Returned pts /\
    length img = (width bmp * height bmp * 4)%nat /\
    forall i, (i < length img)%nat ->
      (nth i img 0%Z = 255%Z /\
       exists p k, In p pts /\ (0 <= k <= 3)%Z /\
         (inject_Z (Z.of_nat (width bmp)) * y p + x p) * 4 + inject_Z k == inject_Z (Z.of_nat i)) \/
      (nth i img 0%Z = 0%Z /\
       ~ exists p k, In p pts /\ (0 <= k <= 3)%Z /\
         (inject_Z (Z.of_nat (width bmp)) * y p + x p) * 4 + inject_Z k == inject_Z (Z.of_nat i)).
Proof.
  destruct (Nat.lt_ge_cases (length points) 3) as [Hlt|H3].
  - unfold slpfFilledArray_body in Hret.
    rewrite (proj2 (Nat.ltb_lt _ _) Hlt) in Hret; discriminate.
  - rewrite (slpfFilledArray_body_corr _ _ _ H3) in Hret.
    destruct (slpfPoints fuel points) as [pts| |]; try discriminate.
    injection Hret as Himg; subst img.
    set (w := width bmp); set (zeros := repeat 0%Z (w * height bmp * 4)).
    exists pts; split; [reflexivity|]; split.
    { rewrite paint_length; apply repeat_length. }
    intros i Hi.
    assert (Hz : forall j, nth j zeros 0%Z = 0%Z).
    { intros j; unfold zeros; destruct (Nat.lt_ge_cases j (w * height bmp * 4)) as [Hj|Hj].
      - apply nth_repeat_lt, Hj.
      - apply nth_overflow; rewrite repeat_length; exact Hj. }
    assert (Hb : Forall (fun b => b = 0%Z \/ b = 255%Z) zeros).
    { apply Forall_forall; intros b Hb'; apply repeat_spec in Hb'; left; exact Hb'. }
    pose proof (paint_bytes w pts zeros Hb) as Hb'.
    rewrite Forall_forall in Hb'.
    destruct (Hb' _ (nth_In _ 0%Z Hi)) as [H0|H255].
    + right; split; [exact H0|].
      intros (p & k & Hp & Hk & Hidx).
      assert (Hw : nth (Z.to_nat (Z.of_nat i)) (paint (fun d => bindSetPixelWhite d w) pts zeros) 0%Z
                   = 255%Z).
      { apply (paint_white w pts zeros p k); [exact Hp|exact Hk|exact Hidx|].
        rewrite paint_length in Hi; lia. }
      rewrite Nat2Z.id in Hw; congruence.
    + left; split; [exact H255|].
      destruct (paint_only w pts zeros i H255) as [Hz'|Hex]; [rewrite Hz in Hz'; discriminate|exact Hex].
Qed.

Lemma slpfFilledArray_buffer_exact_witness :
  exists img, slpfFilledArray_body 10 triangle8 (mkImageBitmap 9 5) = Returned (Some img) /\
              length img = 180%nat.
Proof.
  eexists; split; [vm_compute; reflexivity|].
  match goal with
  | |- length ?img = _ =>
      destruct (slpfFilledArray_buffer_exact 10 triangle8 (mkImageBitmap 9 5) img
                  ltac:(vm_compute; reflexivity)) as (pts & _ & Hl & _)
  end.
  exact Hl.
Defined.

Section RemoveFilter.
Context {Ref : Type} (deref : Ref -> Edge).

Lemma removeEdges_loop_removed (fuel : nat) (yScan : Q) (i : nat) (AET : list Ref) :
  exists removed,
    Permutation AET (removeEdges_loop deref fuel yScan i AET ++ removed) /\
    Forall (fun e => Qle_bool (getYMax (deref e)) yScan = true) removed.
Proof.
  revert i AET; induction fuel as [|fuel IH]; intros i AET; simpl.
  - exists []; rewrite app_nil_r; split; [reflexivity|constructor].
  - destruct (nth_error AET i) as [e|] eqn:Hi.
    2: { exists []; rewrite app_nil_r; split; [reflexivity|constructor]. }
    assert (Hne : AET <> []) by (intro; subst; destruct i; discriminate).
    pose proof (app_removelast_last e Hne) as Hsplit.
    destruct (Qle_bool (getYMax (deref e)) yScan) eqn:He.
    + destruct (Nat.ltb i (length (removelast AET))) eqn:Hlt.
      * destruct (IH i (replace_nth i (last AET e) (removelast AET))) as (removed & Hr & Hf).
        exists (removed ++ [e]); split.
        -- apply Nat.ltb_lt in Hlt.
           assert (Hi' : nth_error (removelast AET) i = Some e).
           { rewrite Hsplit in Hi; rewrite nth_error_app1 in Hi by exact Hlt; exact Hi. }
           rewrite app_assoc, <- Hr.
           transitivity (removelast AET ++ [last AET e]); [rewrite <- Hsplit; reflexivity|].
           etransitivity; [symmetry; apply Permutation_cons_append|].
           etransitivity; [symmetry; apply (replace_nth_perm i (last AET e) e); exact Hi'|].
           apply Permutation_cons_append.
        -- apply Forall_app; split; [exact Hf|constructor; [exact He|constructor]].
      * destruct (IH (S i) (removelast AET)) as (removed & Hr & Hf).
        exists (removed ++ [last AET e]); split.
        -- rewrite app_assoc, <- Hr, <- Hsplit; reflexivity.
        -- apply Forall_app; split; [exact Hf|constructor; [|constructor]].
           apply Nat.ltb_ge in Hlt.
           assert (Hlen : (i < length AET)%nat) by (apply nth_error_Some; congruence).
           assert (HL : length AET = S (length (removelast AET))).
           { rewrite Hsplit at 1; rewrite length_app; simpl; lia. }
           assert (Hii : i = length (removelast AET)) by lia.
           rewrite Hsplit, Hii, nth_error_app2, Nat.sub_diag in Hi by lia.
           simpl in Hi; injection Hi as Hi; rewrite Hi; exact He.
    + apply IH.
Qed.

Lemma Permutation_filter_eq {A : Type} (f : A -> bool) (l l' : list A) :
  Permutation l l' -> Permutation (filter f l) (filter f l').
Proof.
  induction 1 as [|a l l' _ IH|a b l|l l' l'' _ IH1 _ IH2]; simpl.
  - constructor.
  - destruct (f a); [constructor|]; exact IH.
  - destruct (f a), (f b); try constructor; reflexivity.
  - etransitivity; eassumption.
Qed.

Lemma removeEdges_filter (yScan : Q) (AET : list Ref) :
  Permutation (removeEdges deref yScan AET)
              (filter (fun e => negb (Qle_bool (getYMax (deref e)) yScan)) AET).
Proof.
  destruct (removeEdges_loop_removed (length AET) yScan 0 AET) as (removed & Hp & Hf).
  pose proof (removeEdges_loop_keep deref (length AET) yScan 0 AET ltac:(lia) (Forall_nil _)) as Hk.
  fold (removeEdges deref yScan AET) in Hp, Hk.
  rewrite (Permutation_filter_eq _ _ _ Hp), filter_app.
  assert (Hnil : filter (fun e => negb (Qle_bool (getYMax (deref e)) yScan)) removed = []).
  { clear Hp Hk; induction Hf as [|e l He _ IH]; simpl; [reflexivity|rewrite He; exact IH]. }
  rewrite Hnil, app_nil_r, forallb_filter_id; [reflexivity|].
  apply forallb_forall; intros e He; rewrite Forall_forall in Hk; rewrite (Hk e He); reflexivity.
Qed.
End RemoveFilter.

(** X4: removeEdges keeps exactly the edges with yScan < yMax, each once, possibly in a different order. *)
Theorem removeEdges_keeps_active {Ref : Type} (deref : Ref -> Edge) (yScan : Q) (AET : list Ref) :
  Permutation (removeEdges deref yScan AET)
              (filter (fun e => Qlt_bool yScan (getYMax (deref e))) AET).
Proof. apply removeEdges_filter. Qed.

(** X5: moveEdges pops the longest tail of the Edge Table whose edges have yMin equal to yScan and appends them to the AET in pop order. The AET keeps its old edges as a prefix. The new last edge of the Edge Table, if any, has yMin different from yScan. *)
Theorem moveEdges_pops_matching_suffix {Ref : Type} (deref : Ref -> Edge) (yScan : Q)
  (ET AET ET' AET' : list Ref)
  (Hm : moveEdges deref yScan ET AET = (ET', AET')) :
  exists moved,
    ET = ET' ++ rev moved /\ AET' = AET ++ moved /\
    Forall (fun e => getYMin (deref e) == yScan) moved /\
    (forall e, last_elem ET' = Some e -> ~ getYMin (deref e) == yScan).
Proof.
  destruct (moveEdges_spec deref _ _ _ _ _ Hm) as (moved & H1 & H2 & H3 & H4).
  exists moved; split; [exact H1|]; split; [exact H2|]; split.
  - eapply Forall_impl; [|exact H3]; intros e He; apply Qeq_bool_iff in He; symmetry; exact He.
  - intros e He Heq; specialize (H4 e He).
    rewrite (Qeq_eq_bool _ _ (Qeq_sym _ _ Heq)) in H4; discriminate.
Qed.

Lemma moveEdges_pops_matching_suffix_witness :
  moveEdges (edge_at (pointsToEdges square4)) 0 [1%nat; 0%nat] [] = ([1%nat], [0%nat]) /\
  exists moved, [1%nat; 0%nat] = [1%nat] ++ rev moved.
Proof.
  assert (Hm : moveEdges (edge_at (pointsToEdges square4)) 0 [1%nat; 0%nat] []
               = ([1%nat], [0%nat])) by (vm_compute; reflexivity).
  split; [exact Hm|].
  destruct (moveEdges_pops_matching_suffix _ _ _ _ _ _ Hm) as (moved & H1 & _).
  exists moved; exact H1.
Defined.

Lemma Qlt_bool_iff (a b : Q) : Qlt_bool a b = true <-> a < b.
Proof. unfold Qlt_bool; apply Qgt_bool_true. Qed.

Lemma inject_Z_S (k : nat) : inject_Z (Z.of_nat (S k)) == inject_Z (Z.of_nat k) + 1.
Proof. rewrite Nat2Z.inj_succ, <- Z.add_1_r, inject_Z_plus; reflexivity. Qed.

Lemma collect_loop_spec (n : nat) (xv xend yv : Q) :
  (forall k, (k < n)%nat -> xv + inject_Z (Z.of_nat k) < xend) ->
  length (collect_loop n xv xend yv) = n /\
  forall i p, nth_error (collect_loop n xv xend yv) i = Some p ->
    x p == xv + inject_Z (Z.of_nat i) /\ y p = yv /\ x p < xend.
Proof.
  revert xv; induction n as [|n IH]; intros xv Hk; simpl.
  - split; [reflexivity|]; intros [|i] p H; discriminate.
  - assert (H0 : xv < xend) by (specialize (Hk 0%nat ltac:(lia)); change (inject_Z (Z.of_nat 0)) with 0 in Hk; lra).
    rewrite (proj2 (Qlt_bool_iff xv xend) H0); simpl.
    destruct (IH (xv + 1)) as [Hl Hn].
    { intros k Hkn; specialize (Hk (S k) ltac:(lia)); rewrite inject_Z_S in Hk; lra. }
    split; [rewrite Hl; reflexivity|].
    intros [|i] p Hp; simpl in Hp.
    + injection Hp as <-; cbn [x y]; split; [change (inject_Z (Z.of_nat 0)) with 0; ring|split; [reflexivity|exact H0]].
    + destruct (Hn i p Hp) as (Hx & Hy & Hlt); split; [|split; [exact Hy|exact Hlt]].
      rewrite Hx, inject_Z_S; lra.
Qed.

(** X6: For an integer p1.x, with p1.x and p2.x in [-2^52, 2^52], collectSpan from p1 to p2 returns ceil(p2.x - p1.x) points (none when p2.x <= p1.x). Point i has x = p1.x + i, the given y, and x < p2.x. The run reaches p2.x. *)
Theorem collectSpan_steps (p1 p2 : XYPoint) (yv : Q)
  (Hi1 : is_int (x p1)) (Hs1 : in_safe_range (x p1)) (Hs2 : in_safe_range (x p2)) :
  exists pts,
    collectSpan p1 (Some p2) yv = Some pts /\
    length pts = Z.to_nat (Qceiling (x p2 - x p1)) /\
    (forall i p, nth_error pts i = Some p ->
       x p == x p1 + inject_Z (Z.of_nat i) /\ y p = yv /\ x p < x p2) /\
    x p2 <= x p1 + inject_Z (Z.of_nat (length pts)).
Proof.
  set (d := x p2 - x p1).
  assert (Hk : forall k, (k < Z.to_nat (Qceiling d))%nat -> x p1 + inject_Z (Z.of_nat k) < x p2).
  { intros k Hk.
    assert (Hle : inject_Z (Z.of_nat k) <= inject_Z (Qceiling d - 1)) by (rewrite <- Zle_Qle; lia).
    pose proof (Qceiling_lt d) as Hc; unfold d in *; lra. }
  destruct (collect_loop_spec _ (x p1) (x p2) yv Hk) as [Hl Hn].
  exists (collect_loop (Z.to_nat (Qceiling d)) (x p1) (x p2) yv).
  split; [reflexivity|]; split; [exact Hl|]; split; [exact Hn|].
  rewrite Hl; pose proof (Qle_ceiling d) as Hc.
  destruct (Z.le_gt_cases 0 (Qceiling d)) as [Hp|Hn'].
  - rewrite Z2Nat.id by exact Hp; unfold d in *; lra.
  - replace (Z.to_nat (Qceiling d)) with 0%nat by lia.
    assert (Hneg : inject_Z (Qceiling d) <= inject_Z 0) by (rewrite <- Zle_Qle; lia).
    change (inject_Z (Z.of_nat 0)) with 0; change (inject_Z 0) with 0 in Hneg.
    unfold d in *; lra.
Qed.

Lemma collectSpan_steps_witness :
  is_int (x (pt 0 0)) /\ in_safe_range (x (pt 0 0)) /\ in_safe_range (x (pt (5 # 2) 0)) /\
  exists pts,
    collectSpan (pt 0 0) (Some (pt (5 # 2) 0)) 1 = Some pts /\
    length pts = Z.to_nat (Qceiling (x (pt (5 # 2) 0) - x (pt 0 0))) /\
    (forall i p, nth_error pts i = Some p ->
       x p == x (pt 0 0) + inject_Z (Z.of_nat i) /\ y p = 1 /\ x p < x (pt (5 # 2) 0)) /\
    x (pt (5 # 2) 0) <= x (pt 0 0) + inject_Z (Z.of_nat (length pts)).
Proof.
  assert (Hi1 : is_int (x (pt 0 0))) by reflexivity.
  assert (Hs1 : in_safe_range (x (pt 0 0)))
    by (split; apply Qle_bool_iff; vm_compute; reflexivity).
  assert (Hs2 : in_safe_range (x (pt (5 # 2) 0)))
    by (split; apply Qle_bool_iff; vm_compute; reflexivity).
  split; [exact Hi1|]; split; [exact Hs1|]; split; [exact Hs2|].
  apply (collectSpan_steps (pt 0 0) (pt (5 # 2) 0) 1 Hi1 Hs1 Hs2).
Defined.


(** X7: For a non-horizontal edge whose endpoints have integer x and coordinates in [-2^52, 2^52], lerp at the y of either endpoint gives that endpoint's x (its floor). *)
Theorem lerp_at_endpoints (p1 p2 : XYPoint) (Hs1 : safe_int_point p1) (Hs2 : safe_int_point p2)
  (Hy : ~ y p1 == y p2) :
  lerp (y p1) (mkEdge p1 p2) = inject_Z (Qfloor (x p1)) /\
  lerp (y p2) (mkEdge p1 p2) = inject_Z (Qfloor (x p2)).
Proof.
  assert (Hd : ~ y p2 - y p1 == 0) by (intros H; apply Hy; lra).
  split.
  - change (lerp (y p1) (mkEdge p1 p2)) with
      (inject_Z (Qfloor (((y p1 - y p1) / (y p2 - y p1)) * (x p2 - x p1) + x p1))).
    f_equal; apply Qfloor_comp; field; exact Hd.
  - change (lerp (y p2) (mkEdge p1 p2)) with
      (inject_Z (Qfloor (((y p2 - y p1) / (y p2 - y p1)) * (x p2 - x p1) + x p1))).
    f_equal; apply Qfloor_comp; field; exact Hd.
Qed.

Lemma lerp_at_endpoints_witness :
  safe_int_point (pt 1 0) /\ safe_int_point (pt 3 2) /\ ~ y (pt 1 0) == y (pt 3 2) /\
  lerp 2 (mkEdge (pt 1 0) (pt 3 2)) = inject_Z (Qfloor 3).
Proof.
  assert (Hs1 : safe_int_point (pt 1 0))
    by (split; [reflexivity|]; repeat split; apply Qle_bool_iff; vm_compute; reflexivity).
  assert (Hs2 : safe_int_point (pt 3 2))
    by (split; [reflexivity|]; repeat split; apply Qle_bool_iff; vm_compute; reflexivity).
  assert (Hy : ~ y (pt 1 0) == y (pt 3 2)) by (unfold Qeq; simpl; lia).
  split; [exact Hs1|]; split; [exact Hs2|]; split; [exact Hy|].
  apply (lerp_at_endpoints (pt 1 0) (pt 3 2) Hs1 Hs2 Hy).
Defined.

(** X8: For every edge, getYMin <= getYMax. (getXofYMin, getYMin) and (getXofYMax, getYMax) are the edge's two endpoints, one each. *)
Theorem edge_ends_min_max (e : Edge) :
  getYMin e <= getYMax e /\
  ((mkPoint (getXofYMin e) (getYMin e) = point1 e /\
    mkPoint (getXofYMax e) (getYMax e) = point2 e) \/
   (mkPoint (getXofYMin e) (getYMin e) = point2 e /\
    mkPoint (getXofYMax e) (getYMax e) = point1 e)).
Proof.
  destruct e as [[x1 y1] [x2 y2]]; unfold getYMin, getYMax, getXofYMin, getXofYMax; simpl.
  destruct (Qle_bool y1 y2) eqn:Hle.
  - assert (Hgt : Qgt_bool y1 y2 = false).
    { unfold Qgt_bool; rewrite Hle; reflexivity. }
    rewrite Hgt; split; [apply Qle_bool_iff, Hle|left; split; reflexivity].
  - assert (Hgt : Qgt_bool y1 y2 = true).
    { unfold Qgt_bool; rewrite Hle; reflexivity. }
    rewrite Hgt; split; [apply Qgt_bool_true in Hgt; lra|right; split; reflexivity].
Qed.

Lemma gatherSpans_loop_even (n : nat) (spans : list XYPoint) (yScan : Q) :
  (length spans <= n)%nat -> Nat.even (length spans) = true ->
  exists g, gatherSpans_loop spans yScan = Some g.
Proof.
  revert spans; induction n as [|n IH]; intros spans Hlen Hev.
  - destruct spans; [exists []; reflexivity|simpl in Hlen; lia].
  - destruct spans as [|p1 [|p2 rest]]; [exists []; reflexivity|discriminate|].
    simpl in Hlen, Hev |- *.
    destruct (IH rest) as [g Hg]; [lia|exact Hev|rewrite Hg; eexists; reflexivity].
Qed.

(** X9: When every span x lies in [-2^52, 2^52], gatherSpans throws exactly when the spans list has odd length, and so does drawSpans, whatever the pixel setter. *)
Theorem spans_throw_iff_odd (spans : list XYPoint) (yScan : Q)
  (Hsafe : Forall (fun p => in_safe_range (x p)) spans) :
  (gatherSpans spans yScan = None <-> Nat.odd (length spans) = true) /\
  (forall setPixelAt data,
     drawSpans spans yScan setPixelAt data = None <-> Nat.odd (length spans) = true).
Proof.
  assert (Hg : gatherSpans_loop spans yScan = None <-> Nat.odd (length spans) = true).
  { split; intros H.
    - destruct (Nat.odd (length spans)) eqn:Ho; [reflexivity|].
      rewrite <- Nat.negb_even in Ho; apply negb_false_iff in Ho.
      destruct (gatherSpans_loop_even (length spans) spans yScan (le_n _) Ho) as [g Hg'].
      congruence.
    - apply (gatherSpans_loop_odd (length spans)); [lia|exact H]. }
  split.
  - unfold gatherSpans; rewrite <- Hg; destruct (gatherSpans_loop spans yScan); split;
      congruence.
  - intros setPixelAt data; rewrite drawSpans_gather, <- Hg.
    destruct (gatherSpans_loop spans yScan); split; congruence.
Qed.

Lemma spans_throw_iff_odd_witness :
  Forall (fun p => in_safe_range (x p)) [pt 0 0; pt 2 0; pt 5 0] /\
  (gatherSpans [pt 0 0; pt 2 0; pt 5 0] 0 = None <->
   Nat.odd (length [pt 0 0; pt 2 0; pt 5 0]) = true).
Proof.
  assert (Hsafe : Forall (fun p => in_safe_range (x p)) [pt 0 0; pt 2 0; pt 5 0])
    by (repeat apply Forall_cons; try apply Forall_nil;
        split; apply Qle_bool_iff; vm_compute; reflexivity).
  split; [exact Hsafe|].
  apply (spans_throw_iff_odd [pt 0 0; pt 2 0; pt 5 0] 0 Hsafe).
Defined.



Section SortedBy.
Context {A : Type} (comparator : A -> A -> Q) (R : A -> A -> Prop).
Hypothesis Hafter : forall a b, Qgt_bool (comparator b a) 0 = true -> R a b.
Hypothesis Hbefore : forall a b, Qgt_bool (comparator b a) 0 = false -> R b a.
Hypothesis Htrans : forall a b c, R a b -> R b c -> R a c.

Lemma insert_by_sorted (a : A) (l : list A) :
  StronglySorted R l -> StronglySorted R (insert_by comparator a l).
Proof.
  induction l as [|b l IH]; intros Hs; simpl; [repeat constructor|].
  inversion Hs as [|b' l' Hs' Hall]; subst.
  destruct (Qgt_bool (comparator b a) 0) eqn:Hc.
  - constructor; [exact Hs|]; constructor; [apply Hafter, Hc|].
    eapply Forall_impl; [|exact Hall]; intros c Hbc; apply (Htrans a b c); [apply Hafter, Hc|exact Hbc].
  - constructor; [apply IH, Hs'|].
    apply (Permutation_Forall (Permutation_sym (insert_by_perm comparator a l))).
    constructor; [apply Hbefore, Hc|exact Hall].
Qed.

Lemma sort_by_sorted (l : list A) : StronglySorted R (sort_by comparator l).
Proof.
  unfold sort_by.
  assert (Hgen : forall acc, StronglySorted R acc ->
    StronglySorted R (fold_left (fun acc a => insert_by comparator a acc) l acc)).
  { induction l as [|a l IH]; intros acc Hacc; simpl; [exact Hacc|].
    apply IH, insert_by_sorted, Hacc. }
  apply Hgen; constructor.
Qed.
End SortedBy.

Lemma aet_cmp_sorted (deref : nat -> Edge) (l : list nat) :
  StronglySorted (aet_le deref) (sort_by (aet_cmp deref) l).
Proof.
  apply sort_by_sorted.
  - intros a b H; apply Qgt_bool_true in H; unfold aet_cmp in H; unfold aet_le.
    destruct (Qeq_bool (getXofYMin (deref b) - getXofYMin (deref a)) 0) eqn:He.
    + apply Qeq_bool_iff in He; right; split; lra.
    + left; lra.
  - intros a b H; unfold Qgt_bool in H; apply negb_false_iff, Qle_bool_iff in H.
    unfold aet_cmp in H; unfold aet_le.
    destruct (Qeq_bool (getXofYMin (deref b) - getXofYMin (deref a)) 0) eqn:He.
    + apply Qeq_bool_iff in He; right; split; lra.
    + apply Qeq_bool_neq in He; left.
      destruct (Qlt_le_dec (getXofYMin (deref b)) (getXofYMin (deref a))) as [Hl|Hl];
        [exact Hl|exfalso; apply He; lra].
  - intros a b c; unfold aet_le; intros Hab Hbc; lra.
Qed.

(** X10: After moveEdges, removeEdges and the sort in one pass, the AET is sorted by getXofYMin, ties broken by getXofYMax. Every edge in it has yScan < yMax. The spans of the pass are lerp of each edge in that order. *)
Theorem manage_AET_orders_active (st st1 : Store) (spans : list XYPoint)
  (Hm : manage_AET st = (st1, spans)) :
  StronglySorted (aet_le (edge_at (s_edges st))) (s_AET st1) /\
  Forall (fun r => s_yScan st < getYMax (edge_at (s_edges st) r)) (s_AET st1) /\
  spans = getSpans (edge_at (s_edges st)) (s_yScan st) (s_AET st1).
Proof.
  pose proof (manage_AET_spec _ _ _ Hm) as (_ & _ & _ & _ & moved & removed & _ & _ & _ & _ & Hkeep).
  unfold manage_AET in Hm.
  destruct (moveEdges _ _ _ _) as [ET1 AET1].
  injection Hm as H1 H2; subst st1 spans; simpl in Hkeep |- *.
  split; [apply aet_cmp_sorted|split; [|reflexivity]].
  eapply Forall_impl; [|exact Hkeep]; intros r Hr.
  apply Qnot_le_lt; intros Hle; apply Qle_bool_iff in Hle; congruence.
Qed.

Lemma manage_AET_orders_active_witness :
  manage_AET triangle8_st0 = (fst (manage_AET triangle8_st0), snd (manage_AET triangle8_st0)) /\
  StronglySorted (aet_le (edge_at (s_edges triangle8_st0))) (s_AET (fst (manage_AET triangle8_st0))).
Proof.
  assert (Hm : manage_AET triangle8_st0 =
               (fst (manage_AET triangle8_st0), snd (manage_AET triangle8_st0)))
    by (destruct (manage_AET triangle8_st0); reflexivity).
  split; [exact Hm|].
  apply (manage_AET_orders_active _ _ _ Hm).
Defined.

(** X11: The sorted Edge Table has no last entry to start from exactly when pointsToEdges returns no edge. Otherwise the first scanline is the smallest yMin over all built edges. *)
Theorem slpf_start_scanline (points : list XYPoint) :
  match slpf_init (fresh_store points) with
  | None => pointsToEdges points = []
  | Some st0 =>
      (exists e, In e (pointsToEdges points) /\ s_yScan st0 = getYMin e) /\
      forall e, In e (pointsToEdges points) -> s_yScan st0 <= getYMin e
  end.
Proof.
  unfold slpf_init; simpl.
  set (edges := pointsToEdges points).
  set (ET0 := sort_by (et_cmp (edge_at edges)) (seq 0 (length edges))).
  pose proof (sort_by_perm (et_cmp (edge_at edges)) (seq 0 (length edges))) as Hperm.
  fold ET0 in Hperm.
  destruct (last_elem ET0) as [r|] eqn:Hl; simpl.
  - assert (Hsort : StronglySorted (key_desc (fun r' => getYMin (edge_at edges r'))) ET0)
      by (unfold ET0; rewrite et_cmp_desc; apply sort_by_desc_sorted).
    pose proof (last_elem_split _ _ Hl) as Hsplit.
    assert (Hrin : In r (seq 0 (length edges))).
    { apply (Permutation_in _ Hperm); rewrite Hsplit; apply in_or_app; right; left; reflexivity. }
    apply in_seq in Hrin.
    split.
    + exists (edge_at edges r); split; [apply nth_In; lia|reflexivity].
    + intros e He.
      destruct (In_nth edges e dummy_edge He) as (i & Hi & <-).
      assert (HiET : In i ET0) by (apply (Permutation_in _ (Permutation_sym Hperm)), in_seq; lia).
      rewrite Hsplit in HiET, Hsort.
      apply in_app_or in HiET as [HiET|[<-|[]]]; [|apply Qle_refl].
      apply (StronglySorted_last _ _ _ Hsort i HiET).
  - unfold last_elem in Hl; destruct (rev ET0) eqn:Hr; [|discriminate].
    apply (f_equal (@rev nat)) in Hr; rewrite rev_involutive in Hr; simpl in Hr.
    rewrite Hr in Hperm; apply Permutation_nil in Hperm.
    destruct edges; [reflexivity|discriminate].
Qed.


Lemma aet_started_step (st st' : Store) :
  aet_started st -> scan_body st = Some st' -> aet_started st'.
Proof.
  intros Hinv Hb.
  destruct (scan_body_spec _ _ Hb) as (_ & He & Hy & moved & removed & _ & Hmoved & _ & Hperm & _).
  intros r Hr; rewrite He, Hy.
  assert (Hr' : In r (s_AET st ++ moved))
    by (apply (Permutation_in _ (Permutation_sym Hperm)), in_or_app; left; exact Hr).
  apply in_app_or in Hr' as [Hr'|Hr'].
  - specialize (Hinv r Hr'); lra.
  - rewrite Forall_forall in Hmoved; specialize (Hmoved r Hr').
    apply Qeq_bool_iff in Hmoved; lra.
Qed.

Lemma aet_started_reach (st st' : Store) : aet_started st -> reach st st' -> aet_started st'.
Proof.
  intros Hinv Hr; induction Hr as [st|st st1 st2 [_ Hstep] _ IH]; [exact Hinv|].
  apply IH, (aet_started_step _ _ Hinv Hstep).
Qed.

(** The edges in the AET when the spans of a pass are computed. *)
Lemma pass_active (points : list XYPoint) (st0 st st1 : Store) (spans : list XYPoint) :
  slpf_init (fresh_store points) = Some st0 -> reach st0 st -> manage_AET st = (st1, spans) ->
  forall r, In r (s_AET st1) ->
    In (edge_at (s_edges st) r) (pointsToEdges points) /\
    getYMin (edge_at (s_edges st) r) <= s_yScan st < getYMax (edge_at (s_edges st) r).
Proof.
  intros Hinit Hr Hm r Hrin.
  destruct (slpf_init_tables _ _ Hinit) as (_ & He0 & Haet0 & Hperm0).
  destruct (reach_tables _ _ Hr) as (He & _ & [removed0 Hp0]).
  assert (Hs0 : aet_started st0) by (intros r' Hr'; rewrite Haet0 in Hr'; destruct Hr').
  pose proof (aet_started_reach _ _ Hs0 Hr) as Hs.
  destruct (manage_AET_spec _ _ _ Hm)
    as (_ & _ & _ & _ & moved & removed & Hsplit & Hmoved & _ & Hperm & Hkeep).
  assert (Hr' : In r (s_AET st ++ moved))
    by (apply (Permutation_in _ (Permutation_sym Hperm)), in_or_app; left; exact Hrin).
  split; [|split].
  - assert (Hin : In r (s_ET st ++ s_AET st)).
    { apply in_or_app; apply in_app_or in Hr' as [Hr'|Hr']; [right; exact Hr'|left].
      rewrite Hsplit; apply in_or_app; right; apply in_rev; rewrite rev_involutive; exact Hr'. }
    assert (Hin0 : In r (seq 0 (length (pointsToEdges points)))).
    { apply (Permutation_in _ Hperm0).
      assert (H0 : In r (s_ET st0 ++ s_AET st0)).
      { apply (Permutation_in _ (Permutation_sym Hp0)); rewrite app_assoc; apply in_or_app; left.
        exact Hin. }
      rewrite Haet0, app_nil_r in H0; exact H0. }
    apply in_seq in Hin0.
    rewrite He, He0; apply nth_In; lia.
  - apply in_app_or in Hr' as [Hr'|Hr']; [apply Hs, Hr'|].
    rewrite Forall_forall in Hmoved; specialize (Hmoved r Hr').
    apply Qeq_bool_iff in Hmoved; rewrite Hmoved; apply Qle_refl.
  - rewrite Forall_forall in Hkeep; specialize (Hkeep r Hrin).
    apply Qnot_le_lt; intros Hle; apply Qle_bool_iff in Hle; congruence.
Qed.

(** X12: In every pass of the scanline loop, each edge in the sorted AET is one of the built edges, and yMin <= yScan < yMax holds for it. *)
Theorem active_edges_straddle_scanline (points : list XYPoint) (st0 st st1 : Store)
  (spans : list XYPoint)
  (Hinit : slpf_init (fresh_store points) = Some st0) (Hr : reach st0 st)
  (Hm : manage_AET st = (st1, spans)) :
  forall r, In r (s_AET st1) ->
    In (edge_at (s_edges st) r) (pointsToEdges points) /\
    getYMin (edge_at (s_edges st) r) <= s_yScan st < getYMax (edge_at (s_edges st) r).
Proof. apply (pass_active points st0 st st1 spans Hinit Hr Hm). Qed.

Lemma active_edges_straddle_scanline_witness :
  slpf_init (fresh_store triangle8) = Some triangle8_st0 /\
  manage_AET triangle8_st1 = (fst (manage_AET triangle8_st1), snd (manage_AET triangle8_st1)) /\
  forall r, In r (s_AET (fst (manage_AET triangle8_st1))) ->
    getYMin (edge_at (s_edges triangle8_st1) r) <= s_yScan triangle8_st1.
Proof.
  assert (H0 : slpf_init (fresh_store triangle8) = Some triangle8_st0) by (vm_compute; reflexivity).
  assert (H1 : scan_body triangle8_st0 = Some triangle8_st1) by (vm_compute; reflexivity).
  assert (Hc : loop_cond triangle8_st0 = true) by (vm_compute; reflexivity).
  assert (Hm : manage_AET triangle8_st1 =
               (fst (manage_AET triangle8_st1), snd (manage_AET triangle8_st1)))
    by (destruct (manage_AET triangle8_st1); reflexivity).
  split; [exact H0|]; split; [exact Hm|].
  intros r Hr.
  apply (active_edges_straddle_scanline triangle8 _ _ _ _ H0
           (reach_step _ _ _ (conj Hc H1) (reach_refl _)) Hm r Hr).
Defined.

Lemma collect_loop_in (fuel : nat) (xv xend yv : Q) (p : XYPoint) :
  In p (collect_loop fuel xv xend yv) -> xv <= x p /\ x p < xend /\ y p = yv.
Proof.
  revert xv; induction fuel as [|fuel IH]; intros xv H; simpl in H; [destruct H|].
  destruct (Qlt_bool xv xend) eqn:Hc; [|destruct H].
  apply Qlt_bool_iff in Hc.
  destruct H as [<-|H]; [simpl; split; [apply Qle_refl|split; [exact Hc|reflexivity]]|].
  destruct (IH _ H) as (H1 & H2 & H3); split; [lra|split; assumption].
Qed.

Lemma manage_AET_spans (st st1 : Store) (spans : list XYPoint) :
  manage_AET st = (st1, spans) ->
  spans = getSpans (edge_at (s_edges st)) (s_yScan st) (s_AET st1) /\ s_yScan st1 = s_yScan st.
Proof.
  unfold manage_AET; destruct (moveEdges _ _ _ _); intros H; injection H as <- <-.
  split; reflexivity.
Qed.

Section Box.
Variables lox hix loy hiy : Q.



Lemma gather_in_box (n : nat) (spans : list XYPoint) (ys : Q) (g : list (list XYPoint)) :
  (length spans <= n)%nat ->
  (forall s, In s spans -> inject_Z (Qfloor lox) <= x s <= hix /\ loy <= ys < hiy) ->
  gatherSpans_loop spans ys = Some g -> Forall (in_fill_box lox hix loy hiy) (flatten g).
Proof.
  revert spans g; induction n as [|n IH]; intros spans g Hlen Hs Hg.
  - destruct spans; [injection Hg as <-; constructor|simpl in Hlen; lia].
  - destruct spans as [|p1 [|p2 rest]]; [injection Hg as <-; constructor|discriminate|].
    simpl in Hg, Hlen.
    destruct (gatherSpans_loop rest ys) as [g'|] eqn:Hg'; [|discriminate].
    injection Hg as <-; rewrite flatten_cons; apply Forall_app; split.
    + apply Forall_forall; intros p Hp; apply collect_loop_in in Hp as (H1 & H2 & H3).
      destruct (Hs p1 (or_introl eq_refl)) as [[Hl1 _] Hy].
      destruct (Hs p2 (or_intror (or_introl eq_refl))) as [[_ Hh2] _].
      unfold in_fill_box; rewrite H3; split; [split; lra|exact Hy].
    + apply (IH rest); [lia| |exact Hg'].
      intros s Hs'; apply Hs; right; right; exact Hs'.
Qed.

Lemma lerp_in_box (p1 p2 : XYPoint) (ys : Q) :
  (in_box lox hix loy hiy) p1 -> (in_box lox hix loy hiy) p2 ->
  getYMin (mkEdge p1 p2) <= ys < getYMax (mkEdge p1 p2) ->
  (inject_Z (Qfloor lox) <= lerp ys (mkEdge p1 p2) <= hix) /\ loy <= ys < hiy.
Proof.
  intros [[Hx1 Hx1'] [Hy1 Hy1']] [[Hx2 Hx2'] [Hy2 Hy2']] [Hlo Hhi].
  assert (Hcase : (y p1 <= ys < y p2) \/ (y p2 <= ys < y p1)).
  { revert Hlo Hhi; unfold getYMin, getYMax, Qgt_bool.
    destruct (Qle_bool (y p1) (y p2)) eqn:Hle; simpl; intros; [left|right]; split; assumption. }
  change (lerp ys (mkEdge p1 p2)) with
    (inject_Z (Qfloor (((ys - y p1) / (y p2 - y p1)) * (x p2 - x p1) + x p1))).
  set (t := (ys - y p1) / (y p2 - y p1)).
  assert (Hd : ~ y p2 - y p1 == 0) by (intros H; destruct Hcase; lra).
  assert (Ht : t * (y p2 - y p1) == ys - y p1) by (unfold t; field; exact Hd).
  assert (Ht01 : 0 <= t <= 1) by (destruct Hcase; split; nra).
  set (v := t * (x p2 - x p1) + x p1).
  assert (Hv : lox <= v <= hix) by (unfold v; split; nra).
  split; [|destruct Hcase; split; lra].
  split.
  - rewrite <- Zle_Qle; apply Qfloor_resp_le; lra.
  - pose proof (Qfloor_le v); lra.
Qed.

Lemma pass_in_box (points : list XYPoint) (st0 st st' : Store) :
  Forall (in_box lox hix loy hiy) points ->
  slpf_init (fresh_store points) = Some st0 -> reach st0 st -> scan_body st = Some st' ->
  exists g, s_gathered st' = s_gathered st ++ [g] /\ Forall (in_fill_box lox hix loy hiy) g.
Proof.
  intros Hbox Hinit Hr Hb.
  revert Hb; unfold scan_body.
  destruct (manage_AET st) as [st1 spans] eqn:Hm.
  destruct (gatherSpans spans (s_yScan st1)) as [g|] eqn:Hg; [|discriminate].
  intros H; injection H as <-; simpl.
  destruct (manage_AET_spec _ _ _ Hm) as (_ & _ & _ & Hgath & _).
  exists g; split; [rewrite Hgath; reflexivity|].
  destruct (manage_AET_spans _ _ _ Hm) as [Hspans Hy]; rewrite Hy in Hg.
  unfold gatherSpans in Hg.
  destruct (gatherSpans_loop spans (s_yScan st)) as [g'|] eqn:Hg'; [|discriminate].
  injection Hg as <-.
  apply (gather_in_box (length spans) spans (s_yScan st)); [lia| |exact Hg'].
  intros s Hs; rewrite Hspans in Hs; unfold getSpans in Hs.
  apply in_map_iff in Hs as (r & <- & Hr'); simpl.
  destruct (pass_active _ _ _ _ _ Hinit Hr Hm r Hr') as [Hin Hact].
  destruct (pointsToEdges_in _ _ Hin) as [H1 H2].
  rewrite Forall_forall in Hbox.
  destruct (edge_at (s_edges st) r) as [p1 p2] eqn:He; simpl in H1, H2.
  apply lerp_in_box; [apply Hbox, H1|apply Hbox, H2|exact Hact].
Qed.

Lemma loop_in_box (points : list XYPoint) (st0 : Store) (fuel : nat) :
  Forall (in_box lox hix loy hiy) points -> slpf_init (fresh_store points) = Some st0 ->
  forall st pts, reach st0 st -> Forall (in_fill_box lox hix loy hiy) (flatten (s_gathered st)) ->
  fst (slpf_loop fuel st) = Returned pts -> Forall (in_fill_box lox hix loy hiy) pts.
Proof.
  intros Hbox Hinit; induction fuel as [|fuel IH]; intros st pts Hr Hg Hl; simpl in Hl;
    [discriminate|].
  destruct (loop_cond st) eqn:Hc; [|injection Hl as <-; exact Hg].
  destruct (scan_body st) as [st'|] eqn:Hb; [|discriminate].
  destruct (pass_in_box _ _ _ _ Hbox Hinit Hr Hb) as (g & Hgs & Hgb).
  apply (IH st'); [|rewrite Hgs, flatten_snoc; apply Forall_app; split; assumption|exact Hl].
  apply (reach_trans _ st); [exact Hr|].
  apply (reach_step _ st'); [split; assumption|apply reach_refl].
Qed.
End Box.

(** X13: If all input points have integer x, coordinates in [-2^52, 2^52], and lie in the box lox<=x<=hix, loy<=y<=hiy, every returned point has floor(lox) <= x < hix and loy <= y < hiy. *)
Theorem slpfPoints_within_bounding_box (points : list XYPoint) (fuel : nat)
  (pts : list XYPoint) (lox hix loy hiy : Q)
  (Hsafe : Forall safe_int_point points)
  (Hbox : Forall (fun q => lox <= x q <= hix /\ loy <= y q <= hiy) points)
  (Hret : slpfPoints fuel points = Returned pts) :
  Forall (fun p => inject_Z (Qfloor lox) <= x p < hix /\ loy <= y p < hiy) pts.
Proof.
  revert Hret; unfold slpfPoints, slpfPoints_call; simpl.
  destruct (Nat.ltb (length points) 3); [intros H; injection H as <-; constructor|].
  destruct (slpf_init (fresh_store points)) as [st0|] eqn:Hi; [|discriminate].
  intros Hl.
  apply (loop_in_box lox hix loy hiy points st0 fuel Hbox Hi st0 pts (reach_refl _)); [|exact Hl].
  revert Hi; unfold slpf_init; destruct (last_elem _); intros H; [injection H as <-; constructor|discriminate].
Qed.


Lemma t8_box : Forall (fun q => 0 <= x q <= 8 /\ 0 <= y q <= 4) triangle8.
Proof.
  unfold triangle8; repeat apply Forall_cons; try apply Forall_nil; unfold Qle; simpl; lia.
Qed.

Lemma slpfPoints_within_bounding_box_witness :
  Forall safe_int_point triangle8 /\
  Forall (fun q => 0 <= x q <= 8 /\ 0 <= y q <= 4) triangle8 /\
  exists pts, slpfPoints 10 triangle8 = Returned pts /\
              Forall (fun p => inject_Z (Qfloor 0) <= x p < 8 /\ 0 <= y p < 4) pts.
Proof.
  assert (Hb : Forall (fun q => 0 <= x q <= 8 /\ 0 <= y q <= 4) triangle8).
  { unfold triangle8; repeat apply Forall_cons; try apply Forall_nil; unfold Qle; simpl; lia. }
  assert (Hs : Forall safe_int_point triangle8)
    by (repeat apply Forall_cons; try apply Forall_nil;
        (split; [reflexivity|]); repeat split; apply Qle_bool_iff; vm_compute; reflexivity).
  split; [exact Hs|]; split; [exact Hb|].
  destruct (slpfPoints 10 triangle8) as [pts| |] eqn:Hr.
  - exists pts; split; [reflexivity|].
    apply (slpfPoints_within_bounding_box triangle8 10 pts 0 8 0 4 Hs Hb Hr).
  - vm_compute in Hr; discriminate.
  - vm_compute in Hr; discriminate.
Defined.

(** X14: When every input y is an integer and every coordinate lies in [-2^52, 2^52], slpfFilledArray's scanline loop ends (it returns or throws) within max y - min y + 1 passes. *)
Theorem slpfFilledArray_integer_y_terminates (points : list XYPoint) (fuel : nat)
  (bmp : ImageBitmap)
  (Hint : Forall (fun q => is_int (y q)) points)
  (Hsafe : Forall safe_point points)
  (Hfuel : (Z.to_nat (maxY points - minY points + 1) < fuel)%nat) :
  slpfFilledArray fuel points bmp <> OutOfFuel.
Proof.
  unfold slpfFilledArray.
  destruct (Nat.lt_ge_cases (length points) 3) as [Hlt|H3].
  - unfold slpfFilledArray_body; rewrite (proj2 (Nat.ltb_lt _ _) Hlt); discriminate.
  - rewrite (slpfFilledArray_body_corr _ _ _ H3).
    assert (Hp : slpfPoints fuel points <> OutOfFuel).
    { unfold slpfPoints, slpfPoints_call; simpl.
      destruct (Nat.ltb (length points) 3); [discriminate|].
      destruct (slpf_init (fresh_store points)) as [st0|] eqn:Hi; [|discriminate].
      destruct (slpf_init_inv _ _ Hint Hi) as (z0 & Hinv & Hz0).
      apply (slpf_loop_exits _ _ _ _ _ Hinv); lia. }
    destruct (slpfPoints fuel points); [discriminate|discriminate|contradiction].
Qed.

Lemma slpfFilledArray_integer_y_terminates_witness :
  Forall (fun q => is_int (y q)) triangle8 /\
  Forall safe_point triangle8 /\
  (Z.to_nat (maxY triangle8 - minY triangle8 + 1) < 6)%nat /\
  slpfFilledArray 6 triangle8 (mkImageBitmap 9 5) <> OutOfFuel.
Proof.
  assert (Hint : Forall (fun q => is_int (y q)) triangle8) by (repeat constructor).
  assert (Hsafe : Forall safe_point triangle8)
    by (repeat apply Forall_cons; try apply Forall_nil;
        repeat split; apply Qle_bool_iff; vm_compute; reflexivity).
  assert (Hf : (Z.to_nat (maxY triangle8 - minY triangle8 + 1) < 6)%nat) by (vm_compute; lia).
  split; [exact Hint|]; split; [exact Hsafe|]; split; [exact Hf|].
  apply (slpfFilledArray_integer_y_terminates triangle8 6 (mkImageBitmap 9 5) Hint Hsafe Hf).
Defined.

Lemma gather_rows (n : nat) (spans : list XYPoint) (ys : Q) (g : list (list XYPoint)) :
  (length spans <= n)%nat -> gatherSpans_loop spans ys = Some g ->
  Forall (fun p => y p = ys) (flatten g).
Proof.
  revert spans g; induction n as [|n IH]; intros spans g Hlen Hg.
  - destruct spans; [injection Hg as <-; constructor|simpl in Hlen; lia].
  - destruct spans as [|p1 [|p2 rest]]; [injection Hg as <-; constructor|discriminate|].
    simpl in Hg, Hlen.
    destruct (gatherSpans_loop rest ys) as [g'|] eqn:Hg'; [|discriminate].
    injection Hg as <-; rewrite flatten_cons; apply Forall_app; split.
    + apply Forall_forall; intros p Hp; apply collect_loop_in in Hp as (_ & _ & H3); exact H3.
    + apply (IH rest); [lia|exact Hg'].
Qed.

Lemma StronglySorted_app_iff {A : Type} (R : A -> A -> Prop) (l1 l2 : list A) :
  StronglySorted R l1 -> StronglySorted R l2 ->
  (forall a b, In a l1 -> In b l2 -> R a b) -> StronglySorted R (l1 ++ l2).
Proof.
  induction l1 as [|a l1 IH]; intros H1 H2 H12; simpl; [exact H2|].
  inversion H1 as [|a' l' Hs Hall]; subst.
  constructor; [apply IH; auto; intros; apply H12; [right|]; assumption|].
  apply Forall_app; split; [exact Hall|].
  apply Forall_forall; intros b Hb; apply H12; [left; reflexivity|exact Hb].
Qed.

Lemma StronglySorted_same_y (ys : Q) (l : list XYPoint) :
  Forall (fun p => y p = ys) l -> StronglySorted (fun a b => y a <= y b) l.
Proof.
  induction 1 as [|p l Hp Hl IH]; [constructor|].
  constructor; [exact IH|].
  eapply Forall_impl; [|eassumption]; intros q Hq; simpl; rewrite Hp, Hq; apply Qle_refl.
Qed.

Lemma loop_rows (fuel : nat) (st : Store) (pts : list XYPoint) :
  StronglySorted (fun a b => y a <= y b) (flatten (s_gathered st)) ->
  (forall p, In p (flatten (s_gathered st)) -> y p < s_yScan st) ->
  fst (slpf_loop fuel st) = Returned pts ->
  StronglySorted (fun a b => y a <= y b) pts.
Proof.
  revert st; induction fuel as [|fuel IH]; intros st Hs Hlt Hl; simpl in Hl; [discriminate|].
  destruct (loop_cond st); [|injection Hl as <-; exact Hs].
  revert Hl; unfold scan_body.
  destruct (manage_AET st) as [st1 spans] eqn:Hm.
  destruct (gatherSpans spans (s_yScan st1)) as [g|] eqn:Hg; [|discriminate].
  destruct (manage_AET_spec _ _ _ Hm) as (_ & _ & Hy & Hgath & _).
  unfold gatherSpans in Hg.
  destruct (gatherSpans_loop spans (s_yScan st1)) as [g'|] eqn:Hg'; [|discriminate].
  injection Hg as <-.
  pose proof (gather_rows (length spans) spans _ g' (le_n _) Hg') as Hrow.
  rewrite Hy in Hrow.
  intros Hl; refine (IH _ _ _ Hl); simpl; rewrite Hgath, flatten_snoc.
  - apply StronglySorted_app_iff; [exact Hs|apply (StronglySorted_same_y _ _ Hrow)|].
    intros a b Ha Hb; rewrite Forall_forall in Hrow; rewrite (Hrow b Hb).
    apply Qlt_le_weak, Hlt, Ha.
  - rewrite Hy; intros p Hp; apply in_app_or in Hp as [Hp|Hp].
    + specialize (Hlt p Hp); lra.
    + rewrite Forall_forall in Hrow; rewrite (Hrow p Hp); lra.
Qed.

(** X15: The points slpfPoints returns come in scanline order: their y values never decrease along the list. *)
Theorem slpfPoints_rows_ascending (fuel : nat) (points pts : list XYPoint)
  (Hret : slpfPoints fuel points = Returned pts) :
  StronglySorted (fun a b => y a <= y b) pts.
Proof.
  revert Hret; unfold slpfPoints, slpfPoints_call; simpl.
  destruct (Nat.ltb (length points) 3); [intros H; injection H as <-; constructor|].
  destruct (slpf_init (fresh_store points)) as [st0|] eqn:Hi; [|discriminate].
  assert (Hg : s_gathered st0 = []).
  { revert Hi; unfold slpf_init; destruct (last_elem _); intros H; [injection H as <-; reflexivity|discriminate]. }
  apply loop_rows; rewrite Hg; [constructor|intros p []].
Qed.

Lemma slpfPoints_rows_ascending_witness :
  exists pts, slpfPoints 10 triangle8 = Returned pts /\ StronglySorted (fun a b => y a <= y b) pts.
Proof.
  destruct (slpfPoints 10 triangle8) as [pts| |] eqn:Hr.
  - exists pts; split; [reflexivity|apply (slpfPoints_rows_ascending 10 triangle8 pts Hr)].
  - vm_compute in Hr; discriminate.
  - vm_compute in Hr; discriminate.
Defined.
